(** * CSSM: the Coherent Signal-Subspace Method of [doa/cssm.py]

    A shallow embedding of [CSSM._process] and [CSSM._coherent_sum] and
    the properties of the focusing step, of the reference-frequency
    selection and of the refinement loop.

    Modelling conventions.
    - numpy's [complex128] arithmetic is idealised: array entries live in
      a closed field [C] carrying conjugation, modulus and the order on
      its real elements.  Rounding is not modelled there; where a property
      turns on it (the inversion of line 96, the sums of line 68), the
      lines are embedded a second time in IEEE binary64, on small real
      arrays, in the module [Float64].
    - A Python exception is a value [Raise e] of the type [result];
      nothing in [cssm.py] catches exceptions, so a raise ends the call.
    - The methods inherited from [MUSIC] ([_compute_correlation_matrices],
      [_compute_spatial_spectrum], [_peaks1D], [_subspace_decomposition])
      are not part of [cssm.py]; they are parameters of the development.
      [_peaks1D] is taken to read [self.P] and to bind [self.src_idx] to a
      new array of grid indices, which is all that [cssm.py] relies on.
    - The object fields that [_process] writes ([self.P], [self.src_idx])
      form the record [cssm]; its extra field [calls] is a ghost log of
      the collaborator calls, in program order. *)

From Stdlib Require Import ZArith Lia Sumbool.
From Stdlib Require Import PrimFloat.
From Equations Require Import Equations.
From HB Require Import structures.
From mathcomp Require Import boot order algebra.
From mathcomp Require Import algC.

Set Implicit Arguments.
Unset Strict Implicit.
Unset Printing Implicit Defensive.

Import GRing.Theory Num.Theory Order.Theory.
Local Open Scope ring_scope.

(* MathComp's integers take the key Z; Stdlib's binary integers, which
   hold Python's [int] counters here, are written with the key ZZ. *)
Delimit Scope Z_scope with ZZ.

(** ** Exceptions *)

Inductive exn : Type :=
| IndexError    (* subscript out of range *)
| ValueError    (* argmax of an empty sequence, negative dimension *)
| LinAlgError.  (* numpy.linalg.inv: singular matrix *)

Inductive result (A : Type) : Type :=
| Ok (a : A)
| Raise (e : exn).

Arguments Ok {A} a.
Arguments Raise {A} e.

Definition rbind {A B : Type} (r : result A) (f : A -> result B) : result B :=
  match r with
  | Ok a => f a
  | Raise e => Raise e
  end.

Notation "x <~ r ; k" := (rbind r (fun x => k))
  (at level 200, r at level 100, k at level 200, right associativity,
   format "'[v' x  <~  r ; '/' k ']'").

(** [s[i]] for [i] produced by [range]: never negative, so only the upper
    bound can fail. *)
Fixpoint getitem {A : Type} (s : seq A) (i : nat) : result A :=
  match s, i with
  | [::], _ => Raise IndexError
  | x :: _, 0%N => Ok x
  | _ :: s', i'.+1 => getitem s' i'
  end.

(** ** The object

    [CSSM]: the attributes of [self] that [_process] only reads, and the
    inherited methods as functions.  [spectrum] is the type of the float
    array held by [self.P]; [np_reciprocal] is numpy's elementwise [1 / P]
    on it (IEEE division, kept abstract).  [S] is the number of snapshots
    in the observation tensor [X], indexed [X[sensor, bin, snapshot]]. *)

Record CSSM (C : numClosedFieldType) (M K L S : nat) (spectrum : Type) : Type :=
  MkCSSM {
    mode_vec : 'I_K -> 'I_M -> 'I_L -> C;     (* self.mode_vec[k, m, n] *)
    freq_bins : seq 'I_K;                     (* self.freq_bins *)
    num_freq : nat;                           (* self.num_freq *)
    num_src : Z;                              (* self.num_src *)
    iter : Z;                                 (* self.iter = num_iter *)
    sig_dim : nat;
    noise_dim : nat;
    correlation_matrices : ('I_M -> 'I_K -> 'I_S -> C) -> seq 'M[C]_M;
    spatial_spectrum : 'M[C]_M -> 'I_K -> spectrum;
    np_reciprocal : spectrum -> spectrum;
    peaks1D : spectrum -> seq 'I_L;
    subspace_decomposition :
      'M[C]_M -> 'M[C]_(M, sig_dim) * 'M[C]_(M, noise_dim)
                 * 'rV[C]_sig_dim * 'rV[C]_noise_dim
  }.

(** The collaborator calls that the ghost log records. *)
Inductive event : Type :=
| EvCorrelation    (* self._compute_correlation_matrices *)
| EvSpectrum       (* self._compute_spatial_spectrum *)
| EvPeaks          (* self._peaks1D *)
| EvCoherentSum    (* self._coherent_sum *)
| EvSubspace.      (* self._subspace_decomposition *)

Definition event_code (e : event) : nat :=
  match e with
  | EvCorrelation => 0 | EvSpectrum => 1 | EvPeaks => 2
  | EvCoherentSum => 3 | EvSubspace => 4
  end.

Definition event_decode (n : nat) : event :=
  match n with
  | 0 => EvCorrelation | 1 => EvSpectrum | 2 => EvPeaks
  | 3 => EvCoherentSum | _ => EvSubspace
  end.

Definition event_codeK : cancel event_code event_decode :=
  fun e => match e with
           | EvCorrelation => erefl | EvSpectrum => erefl | EvPeaks => erefl
           | EvCoherentSum => erefl | EvSubspace => erefl
           end.

HB.instance Definition _ := Equality.copy event (can_type event_codeK).

(** The attributes of [self] that [_process] writes, and the log. *)
Record cssm (spectrum : Type) (L : nat) : Type :=
  MkState {
    P : spectrum;              (* self.P *)
    src_idx : seq 'I_L;        (* self.src_idx *)
    calls : seq event          (* ghost: collaborator calls so far *)
  }.

(** ** The model of [cssm.py] *)

Section Model.

Context {C : numClosedFieldType} {M K L S : nat} {spectrum : Type}.
Variable self : CSSM C M K L S spectrum.

Notation snapshots := ('I_M -> 'I_K -> 'I_S -> C).
Notation state := (cssm spectrum L).
Notation directions := (seq (seq 'I_L)).

(** *** Stateful code: state passing with exceptions

    An exception leaves the object as it was when raised. *)

Definition prog (A : Type) : Type := state -> state * result A.

Definition ret {A : Type} (a : A) : prog A := fun o => (o, Ok a).

Definition bind {A B : Type} (m : prog A) (f : A -> prog B) : prog B :=
  fun o => let: (o1, r) := m o in
           match r with
           | Ok a => f a o1
           | Raise e => (o1, Raise e)
           end.

Definition lift {A : Type} (r : result A) : prog A := fun o => (o, r).

Notation "x <- m ;; k" := (bind m (fun x => k))
  (at level 200, m at level 100, k at level 200, right associativity).
Notation "m ;; k" := (bind m (fun _ => k))
  (at level 200, k at level 200, right associativity).

Definition record_call (ev : event) : prog unit :=
  fun o => (MkState (P o) (src_idx o) (rcons (calls o) ev), Ok tt).

Definition set_P (p : spectrum) : prog unit :=
  fun o => (MkState p (src_idx o) (calls o), Ok tt).

Definition get_src_idx : prog (seq 'I_L) := fun o => (o, Ok (src_idx o)).

(** *** The inherited methods *)

Definition _compute_correlation_matrices (X : snapshots) : prog (seq 'M[C]_M) :=
  record_call EvCorrelation ;; ret (correlation_matrices self X).

Definition _compute_spatial_spectrum (A : 'M[C]_M) (k : 'I_K) : prog spectrum :=
  record_call EvSpectrum ;; ret (spatial_spectrum self A k).

Definition _peaks1D : prog unit :=
  fun o => (MkState (P o) (peaks1D self (P o)) (rcons (calls o) EvPeaks), Ok tt).

Definition _subspace_decomposition (R : 'M[C]_M) :
    prog ('M[C]_(M, sig_dim self) * 'M[C]_(M, noise_dim self)
          * 'rV[C]_(sig_dim self) * 'rV[C]_(noise_dim self)) :=
  record_call EvSubspace ;; ret (subspace_decomposition self R).

(** *** The focusing transform and [_coherent_sum] *)
(** [self.mode_vec[k,:,b]] for an index array [b]: the scalar [k] and the
    array [b] are both advanced indices and are separated by a slice, so
    numpy puts the dimension of [b] first: the result is [len(b)] by [M]. *)
Definition take_directions (k : 'I_K) (b : seq 'I_L) : 'M[C]_(size b, M) :=
  \matrix_(c, i) mode_vec self k i (tnth (in_tuple b) c).

(** [np.conjugate(T).T] *)
Definition conj_transpose (m n : nat) (T : 'M[C]_(m, n)) : 'M[C]_(n, m) :=
  (map_mx Num.conj T)^T.

(** [np.linalg.inv] in exact arithmetic: the inverse, or [LinAlgError] on
    a singular matrix.  In binary64 the routine raises when the
    factorisation meets a pivot that is exactly zero, which a singular
    matrix need not produce, and the inverse it returns is rounded: see
    [Float64.inv_raises_2x2] and [Float64.inv_1x1]. *)
Definition np_linalg_inv (A : 'M[C]_M) : result 'M[C]_M :=
  if A \in unitmx then Ok (invmx A) else Raise LinAlgError.

(** The block [B] of line 94-95, for [p = len(beta[j])]:
    [concatenate((zeros([M-p, p]), identity(M-p)), axis=1).T]. *)
Definition complement_block (p : nat) : 'M[C]_(p + (M - p), M - p) :=
  (row_mx (0 : 'M[C]_(M - p, p)) (1%:M : 'M[C]_(M - p)))^T.

(** [np.c_[A, B]] when [p <= M]: both blocks have [M] rows and the result
    is square. *)
Definition np_c_ (p : nat) (pM : (p <= M)%N)
    (A : 'M[C]_(M, p)) (B : 'M[C]_(p + (M - p), M - p)) : 'M[C]_M :=
  castmx (erefl, subnKC pM) (row_mx A (castmx (subnKC pM, erefl) B)).

(** Lines 92-96 for one bin: [k = self.freq_bins[j]], [b = beta[j]].
    [np.zeros([M-p, p])] raises [ValueError] when [M - p] is negative. *)
Definition focusing_transform (f0 k : 'I_K) (b : seq 'I_L) : result 'M[C]_M :=
  let Aj := (take_directions k b)^T in
  let A0 := (take_directions f0 b)^T in
  match @idP (size b <= M)%N with
  | ReflectT pM =>
      let B := complement_block (size b) in
      V <~ np_linalg_inv (np_c_ pM Aj B);
      Ok (np_c_ pM A0 B *m V)
  | ReflectF _ => Raise ValueError
  end.

(** The body of the [for j] loop of [_coherent_sum], over the remaining
    indices [js], with accumulator [R]. *)
Fixpoint coherent_loop (js : seq nat) (C_hat : seq 'M[C]_M) (f0 : 'I_K)
    (beta : seq (seq 'I_L)) (R : 'M[C]_M) : result 'M[C]_M :=
  match js with
  | [::] => Ok R
  | j :: js' =>
      k <~ getitem (freq_bins self) j;
      b <~ getitem beta j;
      Tj <~ focusing_transform f0 k b;
      Cj <~ getitem C_hat j;
      coherent_loop js' C_hat f0 beta (R + Tj *m Cj *m conj_transpose Tj)
  end.

Definition _coherent_sum (C_hat : seq 'M[C]_M) (f0 : 'I_K)
    (beta : seq (seq 'I_L)) : result 'M[C]_M :=
  coherent_loop (iota 0 (size (freq_bins self))) C_hat f0 beta 0.


(** *** Seeding (lines 54-64) *)

(** [np.delete(a, idx)]: the entries of [a] whose position is not in
    [idx] (every position passed here is in range). *)
Definition np_delete {A : Type} (a : seq A) (idx : seq nat) : seq A :=
  mask [seq k \notin idx | k <- iota 0 (size a)] a.

(** The [for k in range(self.num_freq)] loop over the remaining [ks]. *)
Fixpoint seeding (ks : seq nat) (C_hat : seq 'M[C]_M) (beta : directions)
    (invalid : seq nat) : prog (directions * seq nat) :=
  match ks with
  | [::] => ret (beta, invalid)
  | k :: ks' =>
      Ck <- lift (getitem C_hat k) ;;
      fk <- lift (getitem (freq_bins self) k) ;;
      p <- _compute_spatial_spectrum Ck fk ;;
      set_P (np_reciprocal self p) ;;
      _peaks1D ;;
      s <- get_src_idx ;;
      let invalid' :=
        if (Z.of_nat (size s) <? num_src self)%ZZ then rcons invalid k
        else invalid in
      seeding ks' C_hat (rcons beta s) invalid'
  end.

(** *** Reference frequency (lines 67-70) *)

(** [np.argmax]: position of the first maximum; [ValueError] on an empty
    array.  [argmax_scan best vbest i s] scans [s], whose first element
    has position [i], keeping the best position so far. *)
Fixpoint argmax_scan (best : nat) (vbest : C) (i : nat) (s : seq C) : nat :=
  match s with
  | [::] => best
  | x :: s' =>
      if vbest < x then argmax_scan i x i.+1 s'
      else argmax_scan best vbest i.+1 s'
  end.

Definition np_argmax (s : seq C) : result nat :=
  match s with
  | [::] => Raise ValueError
  | x :: s' => Ok (argmax_scan 0 x 1 s')
  end.

(** [np.sum(np.sum(abs(X[:,self.freq_bins,:]), axis=0), axis=1)]: for
    each active bin, the moduli summed over sensors, then over
    snapshots; exact sums here, rounded ones in [Float64.bin_sum]. *)
Definition bin_energy (X : snapshots) (k : 'I_K) : C :=
  \sum_(s < S) \sum_(m < M) `|X m k s|.

Definition energies (X : snapshots) : seq C :=
  [seq bin_energy X k | k <- freq_bins self].

Definition reference_frequency (X : snapshots) : result 'I_K :=
  a <~ np_argmax (energies X);
  getitem (freq_bins self) a.

(** *** The refinement loop (lines 72-85) *)

(** The [while] condition of line 74. *)
Definition loop_guard (i : Z) (o : state) : bool :=
  (i <? iter self)%ZZ
  || ((Z.of_nat (size (src_idx o)) <? num_src self)%ZZ && (i <? 20)%ZZ).

(** [np.tile(src, (n, 1))]: [n] rows, each equal to [src]. *)
Definition np_tile (src : seq 'I_L) (n : nat) : directions := nseq n src.

(** One execution of the loop body, up to the new value of [beta]. *)
Definition iteration (C_hat : seq 'M[C]_M) (f0 : 'I_K) (beta : directions) :
    prog directions :=
  record_call EvCoherentSum ;;
  R <- lift (_coherent_sum C_hat f0 beta) ;;
  dec <- _subspace_decomposition R ;;
  let: (Es, En, ws, wn) := dec in
  let cross := En *m conj_transpose En in
  p <- _compute_spatial_spectrum cross f0 ;;
  set_P p ;;
  _peaks1D ;;
  s <- get_src_idx ;;
  ret (np_tile s (num_freq self)).

(** The loop, from the locals [i] and [beta] and the object [o].  It ends
    since every pass through the body increases [i] towards
    [max iter 20].  On normal exit the final values of the locals are
    returned, although [_process] itself returns [None]. *)
Equations? main_loop (C_hat : seq 'M[C]_M) (f0 : 'I_K) (i : Z)
    (beta : directions) (o : state) : state * result (Z * directions)
    by wf (Z.to_nat (Z.max (iter self) 20 - i)) lt :=
  main_loop C_hat f0 i beta o with sumbool_of_bool (loop_guard i o) => {
    | left Hg with iteration C_hat f0 beta o => {
        | (o', Ok beta') := main_loop C_hat f0 (i + 1)%ZZ beta' o'
        | (o', Raise e) := (o', Raise e) };
    | right _ := (o, Ok (i, beta)) }.
Proof.
  move: Hg; rewrite /loop_guard.
  by move=> /orP [/Z.ltb_lt H|/andP [_ /Z.ltb_lt H]]; lia.
Qed.

(** *** [_process] *)

Definition _process (X : snapshots) : prog (Z * directions) :=
  C_hat <- _compute_correlation_matrices X ;;
  seeded <- seeding (iota 0 (num_freq self)) C_hat [::] [::] ;;
  let: (beta, invalid) := seeded in
  let desired_freq := np_delete (freq_bins self) invalid in
  f0 <- lift (reference_frequency X) ;;
  main_loop C_hat f0 0%ZZ beta.

End Model.

(** ** The specification's vocabulary *)

Section Specification.

Context {C : numClosedFieldType} {M K L S : nat} {spectrum : Type}.
Variable self : CSSM C M K L S spectrum.

(** The spec's [Aj] (and [A0]): the [M] by [p] matrix whose column [c] is
    the steering vector of bin [k] for the direction [b[c]]. *)
Definition steering_stack (k : 'I_K) (b : seq 'I_L) : 'M[C]_(M, size b) :=
  \matrix_(i, c) mode_vec self k i (tnth (in_tuple b) c).

(** The spec's [B]: the [M] by [M - p] matrix whose columns are the last
    [M - p] standard basis vectors [e_p, ..., e_(M-1)]. *)
Definition basis_tail (p : nat) : 'M[C]_(M, M - p) :=
  \matrix_(i, c) (nat_of_ord i == p + nat_of_ord c)%:R.

(** The spec's augmented basis [[A | B]], square when [p <= M]. *)
Definition augmented (p : nat) (pM : (p <= M)%N) (A : 'M[C]_(M, p))
    (B : 'M[C]_(M, M - p)) : 'M[C]_M :=
  castmx (erefl, subnKC pM) (row_mx A B).

(** The spec's termination condition of section 4.6, for the counter [i]
    and [n = len(src_idx)]. *)
Definition stop_condition (i : Z) (n : nat) : bool :=
  (iter self <=? i)%ZZ
  && ((num_src self <=? Z.of_nat n)%ZZ || (20 <=? i)%ZZ).

(** The transform of bin [j] as [_coherent_sum] computes it from
    [self.freq_bins[j]] and [beta[j]]. *)
Definition bin_transform (f0 : 'I_K) (beta : seq (seq 'I_L)) (j : nat) :
    result 'M[C]_M :=
  k <~ getitem (freq_bins self) j;
  b <~ getitem beta j;
  focusing_transform self f0 k b.

Definition from_ok {A : Type} (d : A) (r : result A) : A :=
  if r is Ok a then a else d.

(** The summand [Tj . C_hat[j] . Tj^H] of bin [j]. *)
Definition focused_covariance (C_hat : seq 'M[C]_M) (f0 : 'I_K)
    (beta : seq (seq 'I_L)) (j : nat) : 'M[C]_M :=
  let Tj := from_ok 0 (bin_transform f0 beta j) in
  Tj *m nth 0 C_hat j *m conj_transpose Tj.

(** Bin [j] goes through the body of the loop of [_coherent_sum] without
    an exception. *)
Definition bin_defined (C_hat : seq 'M[C]_M) (f0 : 'I_K)
    (beta : seq (seq 'I_L)) (j : nat) : Prop :=
  (exists T, bin_transform f0 beta j = Ok T) /\ (j < size C_hat)%N.

(** *** The loop, step by step *)

Notation state := (cssm spectrum L).
Notation directions := (seq (seq 'I_L)).

(** The object after a loop body whose [_coherent_sum] raised. *)
Definition after_raise (o : state) : state :=
  MkState (P o) (src_idx o) (rcons (calls o) EvCoherentSum).

(** The object after a loop body whose [_coherent_sum] returned [R]:
    decomposition of [R], spectrum of the noise projector at [f0], peak
    search. *)
Definition scan_state (R : 'M[C]_M) (f0 : 'I_K) (o : state) : state :=
  let: (Es, En, ws, wn) := subspace_decomposition self R in
  let p := spatial_spectrum self (En *m conj_transpose En) f0 in
  MkState p (peaks1D self p)
    (calls o ++ [:: EvCoherentSum; EvSubspace; EvSpectrum; EvPeaks]).

(** [loop_reach C_hat f0 n (i, beta, o) (i', beta', o')]: the loop, at
    its head with locals [i], [beta] and object [o], arrives at its head
    again with [i'], [beta'], [o'] after [n] complete iterations. *)
Inductive loop_reach (C_hat : seq 'M[C]_M) (f0 : 'I_K) :
    nat -> Z * directions * state -> Z * directions * state -> Prop :=
| reach_here (st : Z * directions * state) : loop_reach C_hat f0 0 st st
| reach_next (n : nat) (i : Z) (beta : directions) (o : state)
    (R : 'M[C]_M) (st' : Z * directions * state) :
    loop_guard self i o ->
    _coherent_sum self C_hat f0 beta = Ok R ->
    loop_reach C_hat f0 n
      ((i + 1)%ZZ,
       np_tile (src_idx (scan_state R f0 o)) (num_freq self),
       scan_state R f0 o) st' ->
    loop_reach C_hat f0 n.+1 (i, beta, o) st'.

(** The number of loop bodies entered, read off the log. *)
Definition bodies_entered (o : state) : nat :=
  count_mem EvCoherentSum (calls o).

(** The spectrum that seeding stores in [self.P] for bin number [k]. *)
Definition seed_spectrum (C_hat : seq 'M[C]_M) (k : nat) : result spectrum :=
  Ck <~ getitem C_hat k;
  fk <~ getitem (freq_bins self) k;
  Ok (np_reciprocal self (spatial_spectrum self Ck fk)).

(** The peak list that seeding finds for bin number [k]. *)
Definition seed_peaks (C_hat : seq 'M[C]_M) (k : nat) : seq 'I_L :=
  if seed_spectrum C_hat k is Ok p then peaks1D self p else [::].

(** The calls that seeding [n] bins adds to the log. *)
Definition seed_calls (n : nat) : seq event :=
  flatten (nseq n [:: EvSpectrum; EvPeaks]).

(** [process_at X o0 f0 n (i, beta, o)]: the call [_process(X)] on the
    object [o0] gets through seeding, selects [f0], and is at the head of
    the loop, after [n] complete iterations, with locals [i], [beta] and
    object [o]. *)
Definition process_at (X : 'I_M -> 'I_K -> 'I_S -> C) (o0 : state)
    (f0 : 'I_K) (n : nat) (st : Z * directions * state) : Prop :=
  exists o2 beta0 invalid,
    [/\ seeding self (iota 0 (num_freq self)) (correlation_matrices self X)
          [::] [::] (MkState (P o0) (src_idx o0) (rcons (calls o0) EvCorrelation))
        = (o2, Ok (beta0, invalid)),
        reference_frequency self X = Ok f0
      & loop_reach (correlation_matrices self X) f0 n (0%ZZ, beta0, o2) st].

End Specification.

(** ** Construction, and further vocabulary *)

Section Construction.

Context {C : numClosedFieldType} {M K L S : nat} {spectrum : Type}.

(** [CSSM.__init__] (lines 38-42): [MUSIC.__init__] sets the inherited
    attributes, here the object [base] as it leaves them; then
    [self.iter = num_iter], where [num_iter] defaults to 5 when the caller
    does not pass it.  Further keyword arguments are accepted and
    dropped. *)
Definition __init__ (base : CSSM C M K L S spectrum) (num_iter : option Z) :
    CSSM C M K L S spectrum :=
  {| mode_vec := mode_vec base;
     freq_bins := freq_bins base;
     num_freq := num_freq base;
     num_src := num_src base;
     iter := if num_iter is Some n then n else 5%ZZ;
     sig_dim := sig_dim base;
     noise_dim := noise_dim base;
     correlation_matrices := correlation_matrices base;
     spatial_spectrum := spatial_spectrum base;
     np_reciprocal := np_reciprocal base;
     peaks1D := peaks1D base;
     subspace_decomposition := subspace_decomposition base |}.

(** The calls that [n] complete iterations add to the log. *)
Definition loop_calls (n : nat) : seq event :=
  flatten (nseq n [:: EvCoherentSum; EvSubspace; EvSpectrum; EvPeaks]).

End Construction.

(** ** The reference frequency: the spec's measure, and the selection
    from any array of sums *)

Section Selection.

Context {C : numClosedFieldType} {M K L S : nat} {spectrum : Type}.
Variable self : CSSM C M K L S spectrum.

(** The spec's aggregate magnitude of bin [k]: the magnitude of the
    observation tensor, summed over all pairs of a sensor and a time
    sample. *)
Definition aggregate_magnitude (X : 'I_M -> 'I_K -> 'I_S -> C) (k : 'I_K) : C :=
  \sum_(ms : 'I_M * 'I_S) `|X ms.1 k ms.2|.

(** Lines 68 and 70 from the array [e] of per-bin sums, whatever its
    entries: [self.freq_bins[np.argmax(e)]]. *)
Definition select_reference (e : seq C) : result 'I_K :=
  a <~ np_argmax e;
  getitem (freq_bins self) a.

End Selection.

(** ** Lines 68, 96 and 97 in binary64, on small real arrays

    numpy computes in IEEE binary64 (a [complex128] is a pair of them).
    On arrays whose entries are real, the complex operations used by these
    lines are the real ones on the real parts, the imaginary parts staying
    zero, and conjugation does nothing; so the lines are embedded here on
    [float], for the shapes small enough to write the factorisation out. *)

Module Float64.

Local Open Scope float_scope.





(** The two pivots of the LU factorisation with partial pivoting
    (LAPACK's [getrf]) of the 2 by 2 array [[a, b], [c, d]]: the row whose
    first entry is larger in magnitude goes first (the first one on a
    tie), the multiplier of the other row is its first entry times the
    reciprocal of the pivot, and the second pivot is what elimination
    leaves in the corner. *)
Definition lu_pivots_2x2 (a b c d : float) : float * float :=
  if PrimFloat.abs a <? PrimFloat.abs c then (c, b - (a * (1 / c)) * d)
  else (a, d - (c * (1 / a)) * b).

(** [np.linalg.inv] raises [LinAlgError] exactly when the factorisation
    meets a pivot that is exactly zero. *)
Definition inv_raises_2x2 (a b c d : float) : bool :=
  let: (u1, u2) := lu_pivots_2x2 a b c d in
  (u1 =? 0) || (u2 =? 0).

(** [np.sum] along an axis of fewer than eight entries: the entries are
    added in order. *)
Definition np_sum (xs : seq float) : float := foldl PrimFloat.add 0 xs.

(** Line 68 for one bin and one time sample, [x] listing the bin's entries
    sensor by sensor: the sum over the sensors of the magnitudes (the sum
    over the single sample adds nothing). *)
Definition bin_sum (x : seq float) : float := np_sum (map PrimFloat.abs x).

(** [np.argmax] on floats that are not NaN: the first maximum. *)
Fixpoint first_max_scan (best : nat) (vbest : float) (i : nat)
    (s : seq float) : nat :=
  match s with
  | [::] => best
  | x :: s' =>
      if vbest <? x then first_max_scan i x i.+1 s'
      else first_max_scan best vbest i.+1 s'
  end.

Definition argmax (s : seq float) : result nat :=
  match s with
  | [::] => Raise ValueError
  | x :: s' => Ok (first_max_scan 0 x 1 s')
  end.

End Float64.

(** ** Small arrays

    Concrete objects on which the model is run, with scalars in the
    algebraic numbers.  The first ones have one FFT bin, a grid of one
    candidate direction and one snapshot; [duo] has two of each, and
    keeps [self.P] in binary64. *)

Module Demo.

(** One sensor, one source asked for; [n] is [num_iter] and the peak
    search always answers [pk]. *)
Definition single (n : Z) (pk : seq 'I_1) : CSSM algC 1 1 1 1 (seq algC) :=
  {| mode_vec := fun _ _ _ => 1;
     freq_bins := [:: ord0];
     num_freq := 1;
     num_src := 1%ZZ;
     iter := n;
     sig_dim := 0;
     noise_dim := 1;
     correlation_matrices := fun _ => [:: 1%:M];
     spatial_spectrum := fun _ _ => [:: 0];
     np_reciprocal := fun p => p;
     peaks1D := fun _ => pk;
     subspace_decomposition := fun _ => (0, 1%:M, 0, 0) |}.

(** The peak search never finds a peak. *)
Definition quiet (n : Z) : CSSM algC 1 1 1 1 (seq algC) := single n [::].

(** [num_iter = 0] and seeding finds the one direction of the grid. *)
Definition settled : CSSM algC 1 1 1 1 (seq algC) := single 0%ZZ [:: ord0].

(** Two sensors, two sources asked for; the peak search reports the one
    grid direction twice. *)
Definition twin : CSSM algC 2 1 1 1 (seq algC) :=
  {| mode_vec := fun _ _ _ => 1;
     freq_bins := [:: ord0];
     num_freq := 1;
     num_src := 2%ZZ;
     iter := 5%ZZ;
     sig_dim := 2;
     noise_dim := 0;
     correlation_matrices := fun _ => [:: 1%:M];
     spatial_spectrum := fun _ _ => [:: 1];
     np_reciprocal := fun p => p;
     peaks1D := fun _ => [:: ord0; ord0];
     subspace_decomposition := fun _ => (1%:M, 0, 0, 0) |}.

(** No active frequency bin. *)
Definition silent : CSSM algC 1 1 1 1 (seq algC) :=
  {| mode_vec := fun _ _ _ => 1;
     freq_bins := [::];
     num_freq := 0;
     num_src := 1%ZZ;
     iter := 5%ZZ;
     sig_dim := 1;
     noise_dim := 0;
     correlation_matrices := fun _ => [::];
     spatial_spectrum := fun _ _ => [:: 1];
     np_reciprocal := fun p => p;
     peaks1D := fun _ => [:: ord0];
     subspace_decomposition := fun _ => (1%:M, 0, 0, 0) |}.

(** An observation tensor of ones, and an object before its first call. *)
Definition ones (M : nat) : 'I_M -> 'I_1 -> 'I_1 -> algC := fun _ _ _ => 1.

Arguments ones M : clear implicits.

Definition fresh : cssm (seq algC) 1 := MkState [::] [::] [::].

(** One bin is announced but the correlation estimator returns no
    matrix. *)
Definition starved : CSSM algC 1 1 1 1 (seq algC) :=
  {| mode_vec := fun _ _ _ => 1;
     freq_bins := [:: ord0];
     num_freq := 1;
     num_src := 1%ZZ;
     iter := 5%ZZ;
     sig_dim := 0;
     noise_dim := 1;
     correlation_matrices := fun _ => [::];
     spatial_spectrum := fun _ _ => [:: 0];
     np_reciprocal := fun p => p;
     peaks1D := fun _ => [:: ord0];
     subspace_decomposition := fun _ => (0, 1%:M, 0, 0) |}.

(** Two sensors, two FFT bins, a grid of two directions, two snapshots,
    one source asked for; [self.P] is a float array.  The steering vector
    is [(1, 49)] for every bin and direction.  The spectrum of a matrix
    depends on the bin only, and the peak search answers [seed0] on the
    reciprocal spectrum of bin 0, [seed1] on that of bin 1, and [later] on
    any other spectrum: on the spectra of the loop. *)
Definition duo (n : Z) (fb : seq 'I_2) (seed0 seed1 later : seq 'I_2) :
    CSSM algC 2 2 2 2 (seq float) :=
  {| mode_vec := fun _ m _ => if nat_of_ord m is 0%N then 1 else 49%:R;
     freq_bins := fb;
     num_freq := size fb;
     num_src := 1%ZZ;
     iter := n;
     sig_dim := 1;
     noise_dim := 1;
     correlation_matrices := fun _ => [:: 1%:M; 2%:R%:M];
     spatial_spectrum := fun _ k =>
       if nat_of_ord k is 0%N then [:: 4%float; 2%float]
       else [:: 8%float; 2%float];
     np_reciprocal := map (fun x => (1 / x)%float);
     peaks1D := fun p =>
       if p is x :: _ then
         if (x =? 0.25)%float then seed0
         else if (x =? 0.125)%float then seed1
         else later
       else later;
     subspace_decomposition := fun _ => (0, 0, 0, 0) |}.

(** The two bins and the two directions of the grid. *)
Definition bin0 : 'I_2 := ord0.
Definition bin1 : 'I_2 := Ordinal (isT : (1 < 2)%N).
Definition dir0 : 'I_2 := ord0.
Definition dir1 : 'I_2 := Ordinal (isT : (1 < 2)%N).

(** An observation tensor of ones for [duo], and the object before its
    first call. *)
Definition flat : 'I_2 -> 'I_2 -> 'I_2 -> algC := fun _ _ _ => 1.

Definition blank : cssm (seq float) 2 := MkState [::] [::] [::].

End Demo.

(** ** Properties *)

(** Unfolds the state-passing combinators and the inherited methods. *)
Ltac run_prog := rewrite /bind /record_call /set_P /get_src_idx /ret /lift
  /_peaks1D /_compute_spatial_spectrum /_subspace_decomposition
  /_compute_correlation_matrices /=.

Section GetItem.

Variable A : Type.

Lemma getitem_nth (x0 : A) (s : seq A) (i : nat) :
  getitem s i = if (i < size s)%N then Ok (nth x0 s i) else Raise IndexError.
Proof. by elim: s i => [|x s IH] [|i] //=; rewrite IH ltnS. Qed.

Lemma getitem_ok (s : seq A) (i : nat) (x : A) :
  getitem s i = Ok x -> (i < size s)%N.
Proof. by rewrite (getitem_nth x); case: ifP. Qed.

Lemma getitem_size (s : seq A) (i : nat) :
  (i < size s)%N -> exists x, getitem s i = Ok x.
Proof.
  case: s => [|x0 s] // Hi.
  by exists (nth x0 (x0 :: s) i); rewrite (getitem_nth x0) Hi.
Qed.

Lemma getitem_nseq (n i : nat) (x : A) :
  (i < n)%N -> getitem (nseq n x) i = Ok x.
Proof. by move=> Hi; rewrite (getitem_nth x) size_nseq Hi nth_nseq Hi. Qed.

End GetItem.

Section FocusingTheory.

Context {C : numClosedFieldType} {M K L S : nat} {spectrum : Type}.
Variable self : CSSM C M K L S spectrum.

Lemma take_directionsT (k : 'I_K) (b : seq 'I_L) :
  (take_directions self k b)^T = steering_stack self k b.
Proof. by apply/matrixP => i c; rewrite !mxE. Qed.

Lemma complement_blockE (p : nat) (pM : (p <= M)%N) :
  castmx (subnKC pM, erefl) (complement_block p) = basis_tail p :> 'M[C]__.
Proof.
  apply/matrixP => i c; rewrite castmxE /= /complement_block !mxE.
  case: (splitP _) => j /= Hj; rewrite !mxE.
  - have -> : (nat_of_ord i == p + c)%N = false; last by [].
    by apply/negbTE; rewrite neq_ltn Hj (leq_trans (ltn_ord j)) // leq_addr.
  - by rewrite cast_ord_id Hj eqn_add2l eq_sym -val_eqE.
Qed.

Lemma np_c_E (p : nat) (pM : (p <= M)%N) (A : 'M[C]_(M, p)) :
  np_c_ pM A (complement_block p) = augmented pM A (basis_tail p).
Proof. by rewrite /np_c_ /augmented complement_blockE. Qed.

(** The transform of one bin, in the spec's terms, for [p <= M]. *)
Lemma focusing_transformE (f0 k : 'I_K) (b : seq 'I_L) (pM : (size b <= M)%N) :
  focusing_transform self f0 k b =
  let Aj := steering_stack self k b in
  let A0 := steering_stack self f0 b in
  let B := basis_tail (size b) in
  if augmented pM Aj B \in unitmx
  then Ok (augmented pM A0 B *m invmx (augmented pM Aj B))
  else Raise LinAlgError.
Proof.
  rewrite /focusing_transform; case: {-}_ / idP => [pM'|]; last by rewrite pM.
  rewrite (bool_irrelevance pM' pM) !np_c_E !take_directionsT /np_linalg_inv /=.
  by case: ifP.
Qed.

Lemma focusing_transform_too_many (f0 k : 'I_K) (b : seq 'I_L) :
  (M < size b)%N -> focusing_transform self f0 k b = Raise ValueError.
Proof.
  rewrite /focusing_transform ltnNge; case: {-}_ / idP => [pM|] //.
  by rewrite pM.
Qed.

(** The first [p] columns of [[A | B]] are those of [A]. *)
Lemma augmented_left (p : nat) (pM : (p <= M)%N) (A : 'M[C]_(M, p))
    (B : 'M[C]_(M, M - p)) (i : 'I_M) (c : 'I_p) :
  augmented pM A B i (widen_ord pM c) = A i c.
Proof.
  rewrite /augmented castmxE /=.
  have -> : cast_ord (esym (subnKC pM)) (widen_ord pM c) = lshift (M - p) c.
    exact: val_inj.
  by rewrite row_mxEl cast_ord_id.
Qed.

(** A direction listed twice makes the augmented basis singular. *)
Lemma duplicate_directions_singular (k : 'I_K) (b : seq 'I_L)
    (pM : (size b <= M)%N) :
  ~~ uniq b ->
  augmented pM (steering_stack self k b) (basis_tail (size b)) \notin unitmx.
Proof.
  move=> Hnu.
  have d0 : 'I_L by case: b Hnu {pM} => [|d b'].
  case/(uniqPn d0): Hnu => i [j [Hij Hj Heq]].
  pose c1 : 'I_(size b) := Ordinal (ltn_trans Hij Hj).
  pose c2 : 'I_(size b) := Ordinal Hj.
  rewrite unitmxE -det_tr.
  rewrite (@determinant_alternate _ _ _ (widen_ord pM c1) (widen_ord pM c2)).
  - by rewrite -val_eqE /= neq_ltn Hij.
  - by move=> x; rewrite !mxE !augmented_left !mxE !(tnth_nth d0) /= Heq.
  - by rewrite unitr0.
Qed.

End FocusingTheory.

Section CoherentSumTheory.

Context {C : numClosedFieldType} {M K L S : nat} {spectrum : Type}.
Variable self : CSSM C M K L S spectrum.

Variables (C_hat : seq 'M[C]_M) (f0 : 'I_K) (beta : seq (seq 'I_L)).

Local Notation bin_defined := (bin_defined self C_hat f0 beta).

Lemma coherent_loop_step (j : nat) (js : seq nat) (R0 T : 'M[C]_M) :
  bin_transform self f0 beta j = Ok T -> (j < size C_hat)%N ->
  coherent_loop self (j :: js) C_hat f0 beta R0 =
  coherent_loop self js C_hat f0 beta
    (R0 + focused_covariance self C_hat f0 beta j).
Proof.
  rewrite /focused_covariance /bin_transform /= => HT Hj; move: HT.
  case: (getitem (freq_bins self) j) => [k|e] //=.
  case: (getitem beta j) => [b|e] //= ->.
  by rewrite /= (getitem_nth 0) Hj.
Qed.

Lemma coherent_loop_stop (j : nat) (js : seq nat) (R0 : 'M[C]_M) :
  ~ bin_defined j ->
  exists e, coherent_loop self (j :: js) C_hat f0 beta R0 = Raise e.
Proof.
  rewrite /bin_defined /bin_transform /= => Hn.
  case: (getitem (freq_bins self) j) Hn => [k|e] /=; last by exists e.
  case: (getitem beta j) => [b|e] /=; last by exists e.
  case: (focusing_transform self f0 k b) => [T|e] /=; last by exists e.
  rewrite (getitem_nth 0); case: ifP => [Hj Hn|_ _]; last by exists IndexError.
  by case: Hn; split=> //; exists T.
Qed.

Lemma coherent_loop_ok (n a : nat) (R0 : 'M[C]_M) :
  (forall j, (a <= j < a + n)%N -> bin_defined j) ->
  coherent_loop self (iota a n) C_hat f0 beta R0 =
  Ok (R0 + \sum_(a <= j < a + n) focused_covariance self C_hat f0 beta j).
Proof.
  elim: n a R0 => [|n IH] a R0 Hall /=.
  - by rewrite addn0 big_geq // addr0.
  - have [[T HT] Ha] : bin_defined a.
      by apply: Hall; rewrite leqnn /= -addn1 leq_add2l.
    have /= -> := coherent_loop_step (iota a.+1 n) R0 HT Ha.
    have Hrest : forall j, (a.+1 <= j < a.+1 + n)%N -> bin_defined j.
      move=> j /andP [Hj1 Hj2]; apply: Hall.
      by rewrite (ltnW Hj1) /= addnS -addSn.
    rewrite (IH _ _ Hrest) [in RHS]big_ltn; first by rewrite addnS ltnS leq_addr.
    by rewrite addrA addSn addnS.
Qed.

Lemma coherent_loop_defined (n a : nat) (R0 R : 'M[C]_M) :
  coherent_loop self (iota a n) C_hat f0 beta R0 = Ok R ->
  forall j, (a <= j < a + n)%N -> bin_defined j.
Proof.
  elim: n a R0 => [|n IH] a R0 /=.
  - by move=> _ j; rewrite addn0; case: ltngtP.
  - move=> Hrun j /andP [Hj1 Hj2].
    have Ha : bin_defined a.
      apply: Decidable.not_not.
        rewrite /bin_defined /Decidable.decidable.
        case: (bin_transform self f0 beta a) => [T|e];
          case: (a < size C_hat)%N; try (by right; case);
          try (by right; case; case).
        by left; split=> //; exists T.
      move=> /(coherent_loop_stop (iota a.+1 n) R0) [e He].
      by move: Hrun; rewrite /= in He; rewrite He.
    move: Hj1; rewrite leq_eqVlt => /orP [/eqP <- //|Hj1].
    case: Ha => [[T HT] Ha].
    have /= Hstep := coherent_loop_step (iota a.+1 n) R0 HT Ha.
    rewrite Hstep in Hrun.
    by apply: (IH _ _ Hrun); rewrite Hj1 /= addSn -addnS.
Qed.

(** The first bin that fails decides the exception. *)
Lemma coherent_loop_first_raise (n a j : nat) (R0 : 'M[C]_M) (e : exn) :
  (a <= j < a + n)%N ->
  (forall j', (a <= j' < j)%N -> bin_defined j') ->
  bin_transform self f0 beta j = Raise e ->
  coherent_loop self (iota a n) C_hat f0 beta R0 = Raise e.
Proof.
  elim: n a R0 => [|n IH] a R0 /=.
  - by rewrite addn0; case: ltngtP.
  - move=> /andP [Hj1 Hj2] Hbefore Hraise.
    move: Hj1; rewrite leq_eqVlt => /orP [/eqP Haj|Hj1].
    + move: Hraise; rewrite -Haj /bin_transform.
      case: (getitem (freq_bins self) a) => [k|e1] /=; last by case=> ->.
      case: (getitem beta a) => [b|e1] /=; last by case=> ->.
      by move=> ->.
    + have [[T HT] Ha] : bin_defined a by apply: Hbefore; rewrite leqnn.
      have /= -> := coherent_loop_step (iota a.+1 n) R0 HT Ha.
      apply: IH => //; first by rewrite Hj1 /= addSn -addnS.
      by move=> j' /andP [H1 H2]; apply: Hbefore; rewrite (ltnW H1).
Qed.

Lemma coherent_sum_ok :
  (forall j, (j < size (freq_bins self))%N -> bin_defined j) ->
  _coherent_sum self C_hat f0 beta =
  Ok (\sum_(j < size (freq_bins self)) focused_covariance self C_hat f0 beta j).
Proof.
  move=> Hall.
  have Hall0 : forall j, (0 <= j < 0 + size (freq_bins self))%N -> bin_defined j.
    by move=> j /andP [_]; rewrite add0n; apply: Hall.
  by rewrite /_coherent_sum (coherent_loop_ok _ Hall0) add0r add0n big_mkord.
Qed.

Lemma coherent_sum_defined (R : 'M[C]_M) :
  _coherent_sum self C_hat f0 beta = Ok R ->
  forall j, (j < size (freq_bins self))%N -> bin_defined j.
Proof.
  move=> /coherent_loop_defined Hall j Hj.
  by apply: Hall; rewrite add0n.
Qed.

Lemma coherent_sum_raise (j : nat) :
  (j < size (freq_bins self))%N -> ~ bin_defined j ->
  exists e, _coherent_sum self C_hat f0 beta = Raise e.
Proof.
  move=> Hj Hn.
  case Hrun: (_coherent_sum self C_hat f0 beta) => [R|e]; last by exists e.
  by case: Hn; apply: (coherent_sum_defined Hrun).
Qed.

End CoherentSumTheory.

Section IdentityTransform.

Context {C : numClosedFieldType} {M K L S : nat} {spectrum : Type}.
Variable self : CSSM C M K L S spectrum.

Lemma conj_transpose1 : conj_transpose (1%:M : 'M[C]_M) = 1%:M.
Proof. by rewrite /conj_transpose map_mx1 trmx1. Qed.


(** With no direction at all the augmented basis is the identity. *)
Lemma augmented_nil (pM : (0 <= M)%N) (A : 'M[C]_(M, 0)) :
  augmented pM A (basis_tail 0) = 1%:M.
Proof.
  apply/matrixP => i j; rewrite /augmented castmxE /= !mxE.
  case: (splitP _) => c /= Hc; first by case: c Hc.
  by rewrite !mxE -(val_eqE i j) /= Hc.
Qed.

Lemma focusing_transform_nil (f0 k : 'I_K) :
  focusing_transform self f0 k [::] = Ok 1%:M.
Proof.
  rewrite (focusing_transformE self f0 k (leq0n M : (size [::] <= M)%N)) /=.
  by rewrite !augmented_nil unitmx1 mul1mx invmx1.
Qed.

End IdentityTransform.

Section ReferenceFrequencyTheory.

Context {C : numClosedFieldType} {M K L S : nat} {spectrum : Type}.
Variable self : CSSM C M K L S spectrum.

Lemma argmax_scanP (best : nat) (vbest : C) (i : nat) (s : seq C) :
  vbest \is Num.real -> all (fun x => x \is Num.real) s ->
  let a := argmax_scan best vbest i s in
  (a = best /\ all (fun x => x <= vbest) s)
  \/ (exists n, [/\ (n < size s)%N, a = (i + n)%N, vbest < nth 0 s n,
                   (forall m, (m < n)%N -> nth 0 s m < nth 0 s n)
                 & (forall m, (m < size s)%N -> nth 0 s m <= nth 0 s n)]).
Proof.
  elim: s best vbest i => [|x s IH] best vbest i Hv /=; first by left.
  move=> /andP [Hx Hs]; case: ifP => Hlt.
  - case: (IH i x i.+1 Hx Hs) => [[-> Hall]|[n [Hn -> Hxn Hbefore Hmax]]].
    + right; exists 0%N; split=> //=; first by rewrite addn0.
      case=> [|m] //=; rewrite ltnS => Hm.
      by move/all_nthP: Hall; apply.
    + right; exists n.+1; split=> //=.
      * by rewrite addnS addSn.
      * exact: lt_trans Hlt Hxn.
      * by case=> [|m] //=; rewrite ltnS; apply: Hbefore.
      * by case=> [|m] /=; [rewrite ltW | rewrite ltnS; apply: Hmax].
  - have Hle : x <= vbest by rewrite real_leNgt // Hlt.
    case: (IH best vbest i.+1 Hv Hs) => [[-> Hall]|[n [Hn -> Hxn Hbefore Hmax]]].
    + by left; rewrite Hle.
    + right; exists n.+1; split=> //=.
      * by rewrite addnS addSn.
      * case=> [|m] //=; first by move=> _; exact: le_lt_trans Hle Hxn.
        by rewrite ltnS; apply: Hbefore.
      * case=> [|m] /=; first by move=> _; rewrite ltW // (le_lt_trans Hle Hxn).
        by rewrite ltnS; apply: Hmax.
Qed.

(** [np.argmax] returns the first position holding the maximum. *)
Lemma np_argmaxP (s : seq C) (a : nat) :
  all (fun x => x \is Num.real) s -> np_argmax s = Ok a ->
  [/\ (a < size s)%N,
      (forall m, (m < size s)%N -> nth 0 s m <= nth 0 s a)
    & (forall m, (m < a)%N -> nth 0 s m < nth 0 s a)].
Proof.
  case: s => [|x s] //= /andP [Hx Hs] [<-].
  case: (argmax_scanP 0 1 Hx Hs) => /= [[-> Hall]|[n [Hn -> Hxn Hbefore Hmax]]].
  - split=> //; case=> [|m] //=; rewrite ltnS => Hm.
    by move/all_nthP: Hall; apply.
  - rewrite add1n /=; split=> //.
    + by case=> [|m] /=; [rewrite ltW | rewrite ltnS; apply: Hmax].
    + by case=> [|m] //=; rewrite ltnS; apply: Hbefore.
Qed.

Lemma bin_energy_real (X : 'I_M -> 'I_K -> 'I_S -> C) (k : 'I_K) :
  bin_energy X k \is Num.real.
Proof.
  rewrite /bin_energy; apply: rpred_sum => s _; apply: rpred_sum => m _.
  exact: normr_real.
Qed.

Lemma energies_real (X : 'I_M -> 'I_K -> 'I_S -> C) :
  all (fun x => x \is Num.real) (energies self X).
Proof. by apply/allP => x /mapP [k _ ->]; exact: bin_energy_real. Qed.

(** The sums of line 68 are the spec's aggregate magnitudes. *)
Lemma bin_energyE (X : 'I_M -> 'I_K -> 'I_S -> C) (k : 'I_K) :
  bin_energy X k = aggregate_magnitude X k.
Proof.
  rewrite /bin_energy /aggregate_magnitude exchange_big /=.
  by rewrite (pair_big xpredT xpredT (fun m s => `|X m k s|)).
Qed.

Lemma energiesE (X : 'I_M -> 'I_K -> 'I_S -> C) :
  energies self X = [seq aggregate_magnitude X k | k <- freq_bins self].
Proof. by apply: eq_map => k; exact: bin_energyE. Qed.

(** The selection from any array of per-bin sums. *)
Lemma select_referenceP (e : seq C) :
  all (fun x => x \is Num.real) e -> size e = size (freq_bins self) ->
  match select_reference self e with
  | Ok f0 =>
      exists a,
        [/\ getitem (freq_bins self) a = Ok f0,
            (forall m, (m < size e)%N -> nth 0 e m <= nth 0 e a)
          & (forall m, (m < a)%N -> nth 0 e m < nth 0 e a)]
  | Raise err => freq_bins self = [::] /\ err = ValueError
  end.
Proof.
  move=> Hreal Hsize; rewrite /select_reference.
  case Ha: (np_argmax e) => [a|err] /=; last first.
    move: Ha Hsize; case: e {Hreal} => [|x e] //= [<-].
    by case: (freq_bins self).
  have [Hlt Hmax Hfirst] := np_argmaxP Hreal Ha.
  rewrite Hsize in Hlt.
  have [f0 Hf0] := getitem_size Hlt; rewrite Hf0.
  by exists a; split.
Qed.

(** The selection from the sums of line 68. *)
Lemma reference_frequencyP (X : 'I_M -> 'I_K -> 'I_S -> C) :
  match reference_frequency self X with
  | Ok f0 =>
      f0 \in freq_bins self
      /\ exists a,
           [/\ getitem (freq_bins self) a = Ok f0,
               (forall j k, getitem (freq_bins self) j = Ok k ->
                  bin_energy X k <= bin_energy X f0),
               (forall j k, (j < a)%N -> getitem (freq_bins self) j = Ok k ->
                  bin_energy X k < bin_energy X f0)
             & sorted (fun k1 k2 : 'I_K => (k1 < k2)%N) (freq_bins self) ->
               forall k, k \in freq_bins self ->
                 bin_energy X k = bin_energy X f0 -> (f0 <= k)%N]
  | Raise e => freq_bins self = [::] /\ e = ValueError
  end.
Proof.
  rewrite /reference_frequency.
  case Ha: (np_argmax (energies self X)) => [a|e] /=; last first.
    by move: Ha; rewrite /energies; case: (freq_bins self) => [|k ks] //= [<-].
  have [Hlt Hmax Hfirst] := np_argmaxP (energies_real X) Ha.
  rewrite size_map in Hlt Hmax.
  have [f0 Hf0] := getitem_size Hlt; rewrite Hf0.
  have Ef0 : f0 = nth f0 (freq_bins self) a.
    by move: Hf0; rewrite (getitem_nth f0) Hlt => -[].
  have Enth : forall m, (m < size (freq_bins self))%N ->
      nth 0 (energies self X) m = bin_energy X (nth f0 (freq_bins self) m).
    by move=> m Hm; rewrite (nth_map f0).
  split; first by rewrite Ef0 mem_nth.
  exists a; split=> //.
  - move=> j k Hk; have Hj := getitem_ok Hk.
    move: Hk; rewrite (getitem_nth f0) Hj => -[<-].
    by rewrite {2}Ef0 -!Enth // Hmax.
  - move=> j k Hja Hk; have Hj := getitem_ok Hk.
    move: Hk; rewrite (getitem_nth f0) Hj => -[<-].
    by rewrite {2}Ef0 -!Enth // Hfirst.
  - move=> Hsorted k /(nthP f0) [j Hj <-] Heq.
    case: (ltngtP j a) => [Hja|Haj|->]; last by rewrite -Ef0.
    + have := Hfirst j Hja; rewrite !Enth // -Ef0 Heq.
      by rewrite ltxx.
    + rewrite {1}Ef0; apply: ltnW.
      have Htr : transitive (fun k1 k2 : 'I_K => (k1 < k2)%N).
        by move=> y x z; exact: ltn_trans.
      exact: (sorted_ltn_nth Htr f0 Hsorted).
Qed.

End ReferenceFrequencyTheory.

Section LoopTheory.

Context {C : numClosedFieldType} {M K L S : nat} {spectrum : Type}.
Variable self : CSSM C M K L S spectrum.

Notation state := (cssm spectrum L).
Notation directions := (seq (seq 'I_L)).

(** The guard of line 74 is the negation of the spec's termination
    condition. *)
Lemma loop_guardE (i : Z) (o : state) :
  loop_guard self i o = ~~ stop_condition self i (size (src_idx o)).
Proof.
  rewrite /loop_guard /stop_condition negb_and negb_or.
  by rewrite -!Z.ltb_antisym.
Qed.

Lemma iterationE (C_hat : seq 'M[C]_M) (f0 : 'I_K) (beta : directions)
    (o : state) :
  iteration self C_hat f0 beta o =
  match _coherent_sum self C_hat f0 beta with
  | Ok R => (scan_state self R f0 o,
             Ok (np_tile (src_idx (scan_state self R f0 o)) (num_freq self)))
  | Raise e => (after_raise o, Raise e)
  end.
Proof.
  rewrite /iteration /scan_state /after_raise; run_prog.
  case: (_coherent_sum self C_hat f0 beta) => [R|e] //=.
  case: (subspace_decomposition self R) => [[[Es En] ws] wn] /=.
  by rewrite -!cats1 -!catA.
Qed.

Lemma main_loopE (C_hat : seq 'M[C]_M) (f0 : 'I_K) (i : Z) (beta : directions)
    (o : state) :
  main_loop self C_hat f0 i beta o =
  if loop_guard self i o then
    match _coherent_sum self C_hat f0 beta with
    | Ok R =>
        main_loop self C_hat f0 (i + 1)%ZZ
          (np_tile (src_idx (scan_state self R f0 o)) (num_freq self))
          (scan_state self R f0 o)
    | Raise e => (after_raise o, Raise e)
    end
  else (o, Ok (i, beta)).
Proof.
  rewrite main_loop_equation_1 /=.
  case: (sumbool_of_bool (loop_guard self i o)) => Hg /=;
    rewrite [in RHS]Hg //= iterationE.
  by case: (_coherent_sum self C_hat f0 beta).
Qed.

Lemma loop_guard_lt (i : Z) (o : state) :
  loop_guard self i o -> (i < Z.max (iter self) 20)%ZZ.
Proof.
  rewrite /loop_guard.
  by move=> /orP [/Z.ltb_lt H|/andP [_ /Z.ltb_lt H]]; lia.
Qed.

Section FixedInputs.

Variables (C_hat : seq 'M[C]_M) (f0 : 'I_K).

(** Induction along the run of the loop. *)
Lemma main_loop_ind
    (Q : Z -> directions -> state -> state * result (Z * directions) -> Prop) :
  (forall i beta o, loop_guard self i o = false -> Q i beta o (o, Ok (i, beta))) ->
  (forall i beta o e, loop_guard self i o ->
     _coherent_sum self C_hat f0 beta = Raise e ->
     Q i beta o (after_raise o, Raise e)) ->
  (forall i beta o R out, loop_guard self i o ->
     _coherent_sum self C_hat f0 beta = Ok R ->
     Q (i + 1)%ZZ (np_tile (src_idx (scan_state self R f0 o)) (num_freq self))
       (scan_state self R f0 o) out ->
     Q i beta o out) ->
  forall i beta o, Q i beta o (main_loop self C_hat f0 i beta o).
Proof.
  move=> Hexit Hraise Hstep i beta o.
  have [n Hn] : exists n : nat, (Z.max (iter self) 20 - i <= Z.of_nat n)%ZZ.
    by exists (Z.to_nat (Z.max (iter self) 20 - i)); lia.
  elim: n i beta o Hn => [|n IH] i beta o Hn; rewrite main_loopE;
    case Hg: (loop_guard self i o); try exact: Hexit.
  - by have := loop_guard_lt Hg; lia.
  - case Hsum: (_coherent_sum self C_hat f0 beta) => [R|e].
    + by apply: (Hstep _ _ _ R) => //; apply: IH; lia.
    + exact: Hraise.
Qed.

(** A normal exit is reached through complete iterations, and the guard
    is false there. *)
Lemma main_loop_ok_reach (i : Z) (beta : directions) (o : state)
    (o' : state) (i' : Z) (beta' : directions) :
  main_loop self C_hat f0 i beta o = (o', Ok (i', beta')) ->
  (exists n, loop_reach self C_hat f0 n (i, beta, o) (i', beta', o'))
  /\ loop_guard self i' o' = false.
Proof.
  move: i beta o.
  apply: (main_loop_ind (Q := fun i beta o out =>
    out = (o', Ok (i', beta')) ->
    (exists n, loop_reach self C_hat f0 n (i, beta, o) (i', beta', o'))
    /\ loop_guard self i' o' = false)) => [i beta o Hg|i beta o e _ _|] //.
  - by case=> <- <- <-; split=> //; exists 0%N; exact: reach_here.
  - move=> i beta o R out Hg Hsum IH /IH [[n Hreach] Hstop]; split=> //.
    by exists n.+1; exact: (reach_next Hg Hsum).
Qed.

(** A raise comes from [_coherent_sum] at the head of some iteration. *)
Lemma main_loop_raise_reach (i : Z) (beta : directions) (o : state)
    (o' : state) (e : exn) :
  main_loop self C_hat f0 i beta o = (o', Raise e) ->
  exists n i1 beta1 o1,
    [/\ loop_reach self C_hat f0 n (i, beta, o) (i1, beta1, o1),
        loop_guard self i1 o1,
        _coherent_sum self C_hat f0 beta1 = Raise e
      & o' = after_raise o1].
Proof.
  move: i beta o.
  apply: (main_loop_ind (Q := fun i beta o out =>
    out = (o', Raise e) ->
    exists n i1 beta1 o1,
      [/\ loop_reach self C_hat f0 n (i, beta, o) (i1, beta1, o1),
          loop_guard self i1 o1,
          _coherent_sum self C_hat f0 beta1 = Raise e
        & o' = after_raise o1])) => [i beta o Hg|i beta o e1 Hg Hsum|] //.
  - case=> <- He; exists 0%N, i, beta, o; split=> //; first exact: reach_here.
    by rewrite -He.
  - move=> i beta o R out Hg Hsum IH /IH [n [i1 [beta1 [o1 [Hreach Hg1 Hs1 Ho]]]]].
    exists n.+1, i1, beta1, o1; split=> //; exact: (reach_next Hg Hsum).
Qed.

(** The run from a state is the run from any state it reaches. *)
Lemma main_loop_reach (n : nat) (st st' : Z * directions * state) :
  loop_reach self C_hat f0 n st st' ->
  main_loop self C_hat f0 st.1.1 st.1.2 st.2 =
  main_loop self C_hat f0 st'.1.1 st'.1.2 st'.2.
Proof.
  elim=> [//|m i beta o R st2 Hg Hsum _ IH] /=.
  by rewrite main_loopE Hg Hsum.
Qed.

Lemma count_scan_state (ev : event) (R : 'M[C]_M) (o : state) :
  count_mem ev (calls (scan_state self R f0 o)) =
  (count_mem ev (calls o) +
   count_mem ev [:: EvCoherentSum; EvSubspace; EvSpectrum; EvPeaks])%N.
Proof.
  rewrite /scan_state.
  case: (subspace_decomposition self R) => [[[Es En] ws] wn] /=.
  by rewrite count_cat.
Qed.

(** Each complete iteration adds one to the counter and one entry to the
    log of loop bodies; the counter stays below [max iter 20]. *)
Lemma loop_reach_count (n : nat) (st st' : Z * directions * state) :
  loop_reach self C_hat f0 n st st' ->
    [/\ st'.1.1 = (st.1.1 + Z.of_nat n)%ZZ,
        bodies_entered st'.2 = (bodies_entered st.2 + n)%N,
        count_mem EvCorrelation (calls st'.2) =
        count_mem EvCorrelation (calls st.2)
      & (st'.1.1 <= Z.max st.1.1 (Z.max (iter self) 20))%ZZ].
Proof.
  elim=> [[[i beta] o]|m i beta o R st2 Hg Hsum _ /= [Hi Hb Hc Hmax]] /=.
  - by split; rewrite ?addn0 //; lia.
  - split.
    + by rewrite Hi; lia.
    + by rewrite Hb /bodies_entered count_scan_state /= !addn0 addn1 addSnnS.
    + by rewrite Hc count_scan_state /= !addn0.
    + by have := loop_guard_lt Hg; lia.
Qed.

(** After one iteration or more, [beta] is the last peak list, tiled. *)
Lemma loop_reach_tiled (n : nat) (st st' : Z * directions * state) :
  loop_reach self C_hat f0 n st st' ->
  (n = 0%N /\ st' = st)
  \/ (st'.1.2 = np_tile (src_idx st'.2) (num_freq self)
      /\ exists R o1, st'.2 = scan_state self R f0 o1).
Proof.
  elim=> [st0|m i beta o R st2 Hg Hsum _ [[_ ->]|IH]]; first by left.
  - by right; split=> //=; exists R, o.
  - by right.
Qed.

(** Whatever the outcome of the loop: the bodies entered, the bound on
    them, and the counter at a normal exit. *)
Lemma main_loop_summary (i : Z) (beta : directions) (o : state) :
  let out := main_loop self C_hat f0 i beta o in
  exists n : nat,
    [/\ bodies_entered out.1 = (bodies_entered o + n)%N,
        count_mem EvCorrelation (calls out.1) =
        count_mem EvCorrelation (calls o),
        (i + Z.of_nat n <= Z.max i (Z.max (iter self) 20))%ZZ
      & forall i' beta', out.2 = Ok (i', beta') ->
          i' = (i + Z.of_nat n)%ZZ /\ loop_guard self i' out.1 = false].
Proof.
  case Hout: (main_loop self C_hat f0 i beta o) => [o' [[i' beta']|e]] /=.
  - have [[n Hreach] Hstop] := main_loop_ok_reach Hout.
    have /= [Hi Hb Hc Hmax] := loop_reach_count Hreach.
    exists n; split=> //; first by rewrite -Hi.
    by move=> i2 beta2 [<- _]; split.
  - have [n [i1 [beta1 [o1 [Hreach Hg Hsum ->]]]]] := main_loop_raise_reach Hout.
    have /= [Hi Hb Hc Hmax] := loop_reach_count Hreach.
    exists n.+1; split=> //.
    + rewrite /bodies_entered /= -cats1 count_cat /= -/(bodies_entered o1).
      by rewrite Hb !addn0 addn1 addnS.
    + by rewrite /= -cats1 count_cat /= !addn0.
    + by have := loop_guard_lt Hg; lia.
Qed.

End FixedInputs.

End LoopTheory.

Section ProcessTheory.

Context {C : numClosedFieldType} {M K L S : nat} {spectrum : Type}.
Variable self : CSSM C M K L S spectrum.

Notation snapshots := ('I_M -> 'I_K -> 'I_S -> C).
Notation state := (cssm spectrum L).
Notation directions := (seq (seq 'I_L)).

Lemma seeding_cons_ok (k : nat) (ks : seq nat) (C_hat : seq 'M[C]_M)
    (beta : directions) (invalid : seq nat) (o : state) (p : spectrum) :
  seed_spectrum self C_hat k = Ok p ->
  seeding self (k :: ks) C_hat beta invalid o =
  seeding self ks C_hat (rcons beta (peaks1D self p))
    (if (Z.of_nat (size (peaks1D self p)) <? num_src self)%ZZ
     then rcons invalid k else invalid)
    (MkState p (peaks1D self p) (calls o ++ [:: EvSpectrum; EvPeaks])).
Proof.
  rewrite /seed_spectrum /=; run_prog.
  case: (getitem C_hat k) => [Ck|e] //=.
  case: (getitem (freq_bins self) k) => [fk|e] //= [<-].
  by rewrite -!cats1 -catA.
Qed.

Lemma seeding_cons_raise (k : nat) (ks : seq nat) (C_hat : seq 'M[C]_M)
    (beta : directions) (invalid : seq nat) (o : state) (e : exn) :
  seed_spectrum self C_hat k = Raise e ->
  seeding self (k :: ks) C_hat beta invalid o = (o, Raise e).
Proof.
  rewrite /seed_spectrum /=; run_prog.
  case: (getitem C_hat k) => [Ck|e1] /=; last by case=> ->.
  by case: (getitem (freq_bins self) k) => [fk|e1] //= [->].
Qed.

(** Seeding over bins that can all be looked up. *)
Lemma seeding_ok (ks : seq nat) (C_hat : seq 'M[C]_M) (beta : directions)
    (invalid : seq nat) (o : state) :
  (forall k, k \in ks -> exists p, seed_spectrum self C_hat k = Ok p) ->
  exists o' invalid',
    [/\ seeding self ks C_hat beta invalid o =
        (o', Ok (beta ++ [seq seed_peaks self C_hat k | k <- ks], invalid')),
        calls o' = calls o ++ seed_calls (size ks)
      & match ks with
        | [::] => o' = o
        | k :: ks' => src_idx o' = seed_peaks self C_hat (last k ks')
        end].
Proof.
  elim: ks beta invalid o => [|k ks IH] beta invalid o Hall.
  - by exists o, invalid; split; rewrite //= cats0.
  - have [p Hp] : exists p, seed_spectrum self C_hat k = Ok p.
      by apply: Hall; rewrite mem_head.
    rewrite (seeding_cons_ok ks beta invalid o Hp).
    set o1 := MkState _ _ _; set inv1 := if _ then _ else _.
    have Hrest : forall k', k' \in ks -> exists p', seed_spectrum self C_hat k' = Ok p'.
      by move=> k' Hk'; apply: Hall; rewrite in_cons Hk' orbT.
    have [o' [invalid' [Hrun Hcalls Hlast]]] := IH (rcons beta (peaks1D self p)) inv1 o1 Hrest.
    exists o', invalid'; split.
    + by rewrite Hrun cat_rcons /= [seed_peaks self C_hat k]/seed_peaks Hp.
    + by rewrite Hcalls /= -catA.
    + case: ks Hlast {IH Hall Hrest Hrun Hcalls} => [->|k2 ks2 ->] //=.
      by rewrite /seed_peaks Hp.
Qed.

Lemma count_seed_calls (ev : event) (n : nat) :
  ev != EvSpectrum -> ev != EvPeaks -> count_mem ev (seed_calls n) = 0%N.
Proof.
  move=> /negbTE H1 /negbTE H2; elim: n => [|n IH] //=.
  by rewrite eq_sym H1 eq_sym H2 /= !add0n.
Qed.

(** [_process], stage by stage. *)
Lemma processE (X : snapshots) (o : state) :
  _process self X o =
  let C_hat := correlation_matrices self X in
  let o1 := MkState (P o) (src_idx o) (rcons (calls o) EvCorrelation) in
  match seeding self (iota 0 (num_freq self)) C_hat [::] [::] o1 with
  | (o2, Ok (beta, invalid)) =>
      match reference_frequency self X with
      | Ok f0 => main_loop self C_hat f0 0%ZZ beta o2
      | Raise e => (o2, Raise e)
      end
  | (o2, Raise e) => (o2, Raise e)
  end.
Proof.
  rewrite /_process; run_prog.
  by case: (seeding _ _ _ _ _ _) => [o2 [[beta invalid]|e]].
Qed.

(** The reference frequency exists as soon as one bin is active. *)
Lemma reference_frequency_ok (X : snapshots) :
  freq_bins self <> [::] -> exists f0, reference_frequency self X = Ok f0.
Proof.
  rewrite /reference_frequency => Hne.
  case Ha: (np_argmax (energies self X)) => [a|e] /=.
  - have [Hlt _ _] := np_argmaxP (energies_real self X) Ha.
    by apply: getitem_size; rewrite size_map in Hlt.
  - by move: Ha; rewrite /energies; case: (freq_bins self) Hne.
Qed.

(** Whatever its outcome, seeding only adds seeding calls to the log. *)
Lemma seeding_calls (ks : seq nat) (C_hat : seq 'M[C]_M) (beta : directions)
    (invalid : seq nat) (o : state) :
  exists m, calls (seeding self ks C_hat beta invalid o).1
            = calls o ++ seed_calls m.
Proof.
  elim: ks beta invalid o => [|k ks IH] beta invalid o.
  - by exists 0%N; rewrite /= cats0.
  - case Hp: (seed_spectrum self C_hat k) => [p|e].
    + rewrite (seeding_cons_ok ks beta invalid o Hp).
      set o1 := MkState _ _ _; set inv1 := if _ then _ else _.
      have [m ->] := IH (rcons beta (peaks1D self p)) inv1 o1.
      by exists m.+1; rewrite /= -catA.
    + by rewrite (seeding_cons_raise ks beta invalid o Hp); exists 0%N; rewrite /= cats0.
Qed.

Lemma counts_after_seeding (o o2 : state) (m : nat) :
  calls o2 = rcons (calls o) EvCorrelation ++ seed_calls m ->
  bodies_entered o2 = bodies_entered o
  /\ count_mem EvCorrelation (calls o2) = (count_mem EvCorrelation (calls o)).+1.
Proof.
  move=> Hc; rewrite /bodies_entered Hc !count_cat -cats1 !count_cat /=.
  by rewrite !count_seed_calls // !addn0 addn1.
Qed.

(** Whatever the outcome of [_process]: loop bodies entered, covariance
    estimations, and the counter at a normal exit. *)
Lemma process_summary (X : snapshots) (o : state) :
  let out := _process self X o in
  exists n : nat,
    [/\ bodies_entered out.1 = (bodies_entered o + n)%N,
        count_mem EvCorrelation (calls out.1) =
        (count_mem EvCorrelation (calls o)).+1,
        (Z.of_nat n <= Z.max (iter self) 20)%ZZ
      & forall i' beta', out.2 = Ok (i', beta') ->
          i' = Z.of_nat n /\ loop_guard self i' out.1 = false].
Proof.
  rewrite processE /=.
  set o1 := MkState _ _ _; set C_hat := correlation_matrices self X.
  have [m] := seeding_calls (iota 0 (num_freq self)) C_hat [::] [::] o1.
  case: (seeding _ _ _ _ _ _) => [o2 [[beta invalid]|e]] /= Hc;
    have [Hb He] := counts_after_seeding Hc; last first.
    by exists 0%N; split; rewrite ?addn0 //; lia.
  case: (reference_frequency self X) => [f0|e] /=; last first.
    by exists 0%N; split; rewrite ?addn0 //; lia.
  have /= [n [Hn1 Hn2 Hn3 Hn4]] := main_loop_summary self C_hat f0 0%ZZ beta o2.
  by exists n; split; rewrite ?Hn1 ?Hn2 ?Hb ?He //; lia.
Qed.

(** From a loop head that the call passes through, the call is the run of
    the loop from there. *)
Lemma process_at_run (X : snapshots) (o0 : state) (f0 : 'I_K) (n : nat)
    (st : Z * directions * state) :
  process_at self X o0 f0 n st ->
  _process self X o0 =
  main_loop self (correlation_matrices self X) f0 st.1.1 st.1.2 st.2.
Proof.
  case=> o2 [beta0 [invalid [Hseed Hf0 Hreach]]].
  by rewrite processE /= Hseed Hf0 (main_loop_reach Hreach).
Qed.

End ProcessTheory.

(** ** The focusing step ([_coherent_sum]) *)

Section FocusingClaims.

Context {C : numClosedFieldType} {M K L S : nat} {spectrum : Type}.
Variable self : CSSM C M K L S spectrum.

Notation snapshots := ('I_M -> 'I_K -> 'I_S -> C).
Notation state := (cssm spectrum L).
Notation directions := (seq (seq 'I_L)).


(** C4. For a direction set [b] of size [p < M], the transform of a bin
    [k] is [[A0 | B] . [Aj | B]^-1] (and [LinAlgError] when [[Aj | B]] has
    no inverse), where [Aj] and [A0] stack the steering vectors of bin [k]
    and of [f0] for the same directions [b], and [B] is the block whose
    columns are the last [M - p] standard basis vectors. *)
Theorem focusing_transform_augmented_bases (f0 k : 'I_K) (b : seq 'I_L)
    (pM : (size b < M)%N) :
  let Aj := steering_stack self k b in
  let A0 := steering_stack self f0 b in
  let B := basis_tail (size b) in
  focusing_transform self f0 k b =
  if augmented (ltnW pM) Aj B \in unitmx
  then Ok (augmented (ltnW pM) A0 B *m invmx (augmented (ltnW pM) Aj B))
  else Raise LinAlgError.
Proof. exact: focusing_transformE. Qed.


(** C6, amended.  Let a call of [_process] be at the head of the loop
    with the guard true, and let [np.linalg.inv] raise on the augmented
    basis [[Aj | B]] of some active bin [j] for the current [beta].  Then
    the transform of that bin is not computed; [_coherent_sum] returns no
    matrix but raises; the loop body and the whole call end with that
    exception, with no collaborator called after [_coherent_sum] was
    entered and [self.P], [self.src_idx] as they were: the bin is neither
    skipped nor tried again; and the exception is the one of the
    inversion when the bins before [j] went through. *)
Theorem inversion_failure_aborts_call
    (X : snapshots) (o0 : state) (f0 : 'I_K) (n : nat)
    (i : Z) (beta : directions) (o : state)
    (j : nat) (k : 'I_K) (b : seq 'I_L) (pM : (size b <= M)%N) (e : exn)
    (Hat : process_at self X o0 f0 n (i, beta, o))
    (Hguard : loop_guard self i o)
    (Hk : getitem (freq_bins self) j = Ok k)
    (Hb : getitem beta j = Ok b)
    (Hinv : np_linalg_inv
              (np_c_ pM (take_directions self k b)^T
                 (complement_block (size b))) = Raise e) :
  focusing_transform self f0 k b = Raise e
  /\ exists e',
       [/\ _coherent_sum self (correlation_matrices self X) f0 beta = Raise e',
           iteration self (correlation_matrices self X) f0 beta o
           = (after_raise o, Raise e'),
           _process self X o0 = (after_raise o, Raise e')
         & (forall j', (j' < j)%N ->
              bin_defined self (correlation_matrices self X) f0 beta j') ->
           e' = e].
Proof.
  have HT : focusing_transform self f0 k b = Raise e.
    rewrite /focusing_transform; case: {-}_ / idP => [pM'|]; last by rewrite pM.
    by rewrite (bool_irrelevance pM' pM) Hinv.
  have Hbin : bin_transform self f0 beta j = Raise e.
    by rewrite /bin_transform Hk /= Hb.
  split=> //.
  have Hj := getitem_ok Hk.
  have [e' He] : exists e',
      _coherent_sum self (correlation_matrices self X) f0 beta = Raise e'.
    by apply: (coherent_sum_raise Hj); rewrite /bin_defined Hbin; case; case.
  exists e'; split=> //.
  - by rewrite iterationE He.
  - by rewrite (process_at_run Hat) /= main_loopE Hguard He.
  - move=> Hbefore; move: He; rewrite /_coherent_sum.
    rewrite (@coherent_loop_first_raise _ _ _ _ _ _ self _ f0 beta _ 0 j 0 e) //.
    by case.
Qed.

End FocusingClaims.

(** ** The controller ([_process]) *)

Section ControllerClaims.

Context {C : numClosedFieldType} {M K L S : nat} {spectrum : Type}.
Variable self : CSSM C M K L S spectrum.

Notation snapshots := ('I_M -> 'I_K -> 'I_S -> C).
Notation state := (cssm spectrum L).
Notation directions := (seq (seq 'I_L)).

(** C1, amended.  The loop stops exactly when [i >= num_iter] and
    ([len(src_idx) >= num_src] or [i >= 20]): its guard is the negation of
    that condition, at a loop head where it holds the loop exits, and
    where it fails the body runs.  A call that returns has run the body
    at least [num_iter] times, as many times as the final counter says,
    and the condition holds at its end.  When [i = num_iter], fewer than
    [num_src] directions were found and [i < 20], the loop goes on. *)
Theorem loop_stops_exactly_at_stop_condition :
  (forall i (o : state),
     loop_guard self i o = ~~ stop_condition self i (size (src_idx o)))
  /\ (forall C_hat f0 i beta (o : state),
        main_loop self C_hat f0 i beta o =
        if stop_condition self i (size (src_idx o)) then (o, Ok (i, beta))
        else match _coherent_sum self C_hat f0 beta with
             | Ok R =>
                 main_loop self C_hat f0 (i + 1)%ZZ
                   (np_tile (src_idx (scan_state self R f0 o)) (num_freq self))
                   (scan_state self R f0 o)
             | Raise e => (after_raise o, Raise e)
             end)
  /\ (forall (X : snapshots) (o0 : state) i' beta',
        (_process self X o0).2 = Ok (i', beta') ->
        [/\ (iter self <= i')%ZZ,
            bodies_entered (_process self X o0).1
            = (bodies_entered o0 + Z.to_nat i')%N
          & stop_condition self i' (size (src_idx (_process self X o0).1))])
  /\ (forall i (o : state),
        i = iter self -> (Z.of_nat (size (src_idx o)) < num_src self)%ZZ ->
        (i < 20)%ZZ -> loop_guard self i o).
Proof.
  split; [exact: loop_guardE | split; [|split]].
  - move=> C_hat f0 i beta o; rewrite main_loopE loop_guardE.
    by case: (stop_condition _ _ _).
  - move=> X o0 i' beta' Hout.
    have /= [n [Hb _ _ Hok]] := process_summary self X o0.
    have [Hi Hg] := Hok _ _ Hout.
    have Hstop : stop_condition self i' (size (src_idx (_process self X o0).1)).
      by move: Hg; rewrite loop_guardE => /negbFE.
    split=> //; last by rewrite Hb Hi Nat2Z.id.
    by move: Hstop; rewrite /stop_condition => /andP [/Z.leb_le].
  - move=> i o -> /Z.ltb_lt Hs /Z.ltb_lt H20.
    by rewrite /loop_guard Hs H20 orbT.
Qed.


(** C5, amended.  The reference frequency is [self.freq_bins[argmax e]],
    where [e] lists, for each position of [self.freq_bins], the magnitude
    of the observation tensor summed over sensors and time samples.
    Whatever the sums [e] are, the selection takes the first position
    where [e] is maximal.  So the reference frequency is an active bin, no
    active bin has a larger sum, and every bin listed before it has a
    strictly smaller one: ties go to the bin listed first, which is the
    lowest bin index when [self.freq_bins] is increasing.  It is undefined
    ([ValueError]) only when no bin is active.  Every loop head of a call
    works with that one [f0], chosen before the loop. *)
Theorem reference_frequency_first_maximum (X : snapshots) :
  [/\ reference_frequency self X
      = select_reference self
          [seq aggregate_magnitude X k | k <- freq_bins self],
      forall e : seq C,
        all (fun x => x \is Num.real) e -> size e = size (freq_bins self) ->
        match select_reference self e with
        | Ok f0 =>
            exists a,
              [/\ getitem (freq_bins self) a = Ok f0,
                  (forall m, (m < size e)%N -> nth 0 e m <= nth 0 e a)
                & (forall m, (m < a)%N -> nth 0 e m < nth 0 e a)]
        | Raise err => freq_bins self = [::] /\ err = ValueError
        end,
      match reference_frequency self X with
      | Ok f0 =>
          f0 \in freq_bins self
          /\ exists a,
               [/\ getitem (freq_bins self) a = Ok f0,
                   (forall j k, getitem (freq_bins self) j = Ok k ->
                      aggregate_magnitude X k <= aggregate_magnitude X f0),
                   (forall j k, (j < a)%N ->
                      getitem (freq_bins self) j = Ok k ->
                      aggregate_magnitude X k < aggregate_magnitude X f0)
                 & sorted (fun k1 k2 : 'I_K => (k1 < k2)%N) (freq_bins self) ->
                   forall k, k \in freq_bins self ->
                     aggregate_magnitude X k = aggregate_magnitude X f0 ->
                     (f0 <= k)%N]
      | Raise e => freq_bins self = [::] /\ e = ValueError
      end
    & forall (o0 : state) f n st, process_at self X o0 f n st ->
        reference_frequency self X = Ok f
        /\ _process self X o0 =
           main_loop self (correlation_matrices self X) f st.1.1 st.1.2 st.2].
Proof.
  split.
  - by rewrite -energiesE.
  - exact: select_referenceP.
  - have := reference_frequencyP self X.
    case: (reference_frequency self X) => [f0|e] //.
    case=> Hin [a [Hget Hmax Hfirst Hlow]]; split=> //.
    exists a; split=> //.
    + by move=> j k /Hmax; rewrite !bin_energyE.
    + by move=> j k Hj /(Hfirst _ _ Hj); rewrite !bin_energyE.
    + by move=> Hs k Hk; rewrite -!bin_energyE; exact: Hlow.
  - move=> o0 f n st Hat; split; last exact: process_at_run Hat.
    by case: Hat => o2 [beta0 [invalid [_ Hf _]]].
Qed.

(** C7, amended.  With no active bin, [_process] raises [ValueError] at
    the selection of the reference frequency: by then it has called the
    correlation estimator, and it has computed no spectrum, searched no
    peak, focused and decomposed nothing, and [self.P] and [self.src_idx]
    are untouched. *)
Theorem empty_bins_raise_after_correlation (X : snapshots) (o0 : state)
    (Hbins : freq_bins self = [::]) (Hnum : num_freq self = 0%N) :
  _process self X o0 =
  (MkState (P o0) (src_idx o0) (rcons (calls o0) EvCorrelation),
   Raise ValueError).
Proof.
  by rewrite processE /= Hnum /= /reference_frequency /energies Hbins.
Qed.

(** C8.  When an execution of the loop body completes, the new [beta]
    is [self.src_idx] tiled over the bins, where [self.src_idx] is what
    the peak search has just found in the spectrum scanned at [f0]: every
    active bin holds that same list, the next iteration starts from that
    [beta], and the transform of every bin is then built from that one
    list.  A call of [_process] that returns after one iteration or more
    ends with such a [beta]. *)
Theorem beta_is_last_peak_list_for_every_bin
    (C_hat : seq 'M[C]_M) (f0 : 'I_K) (beta : directions) (o : state)
    (o' : state) (beta' : directions)
    (Hwf : num_freq self = size (freq_bins self))
    (Hbody : iteration self C_hat f0 beta o = (o', Ok beta')) :
  [/\ beta' = np_tile (src_idx o') (num_freq self),
      src_idx o' = peaks1D self (P o')
      /\ (exists R, _coherent_sum self C_hat f0 beta = Ok R
                    /\ o' = scan_state self R f0 o),
      (forall j, (j < size (freq_bins self))%N ->
         getitem beta' j = Ok (src_idx o')),
      (forall j k, getitem (freq_bins self) j = Ok k ->
         bin_transform self f0 beta' j
         = focusing_transform self f0 k (src_idx o'))
    & (forall i, loop_guard self i o ->
         main_loop self C_hat f0 i beta o
         = main_loop self C_hat f0 (i + 1)%ZZ beta' o')]
  /\ (forall (X : snapshots) (o0 o1 : state) (i1 : Z) (beta1 : directions),
        _process self X o0 = (o1, Ok (i1, beta1)) -> (0 < i1)%ZZ ->
        [/\ beta1 = np_tile (src_idx o1) (num_freq self),
            src_idx o1 = peaks1D self (P o1)
          & forall j, (j < size (freq_bins self))%N ->
              getitem beta1 j = Ok (src_idx o1)]).
Proof.
  have Hpeaks : forall f R (o2 : state),
      src_idx (scan_state self R f o2) = peaks1D self (P (scan_state self R f o2)).
    move=> f R o2; rewrite /scan_state.
    by case: (subspace_decomposition self R) => [[[Es En] ws] wn].
  split.
  - move: Hbody; rewrite iterationE.
    case Hsum: (_coherent_sum self C_hat f0 beta) => [R|e] // [Ho' Hbeta].
    have Hget : forall j, (j < size (freq_bins self))%N ->
        getitem beta' j = Ok (src_idx o').
      by move=> j Hj; rewrite -Hbeta -Ho' /np_tile getitem_nseq // Hwf.
    split.
    + by rewrite -Hbeta -Ho'.
    + by split; [rewrite -Ho' | exists R].
    + exact: Hget.
    + move=> j k Hk; rewrite /bin_transform Hk /= Hget //.
      exact: getitem_ok Hk.
    + by move=> i Hg; rewrite main_loopE Hg Hsum Hbeta Ho'.
  - move=> X o0 o1 i1 beta1; rewrite processE /=.
    case: (seeding _ _ _ _ _ _) => [o2 [[beta0 invalid]|e]] //.
    case: (reference_frequency self X) => [f|e] // Hloop Hi.
    have [[m Hreach] _] := main_loop_ok_reach Hloop.
    have /= [Hcount _ _ _] := loop_reach_count Hreach.
    case: (loop_reach_tiled Hreach) => [[Hm _]|/= [Hbeta [R [o3 Ho1]]]].
      by move: Hi; rewrite Hcount Hm.
    split=> //; first by rewrite Ho1.
    by move=> j Hj; rewrite Hbeta /np_tile getitem_nseq // Hwf.
Qed.

(** C10, amended.  On an object whose bins and covariances are in step,
    with one active bin or more, a call gets to the loop with
    [self.src_idx] holding the seeding peak list of the last active bin;
    the first evaluation of the guard is
    [0 < num_iter or len(that list) < num_src].  So when [num_iter <= 0]
    that list alone decides whether the loop body runs at all: when it has
    [num_src] entries or more, the call returns without entering the loop
    body, leaving that list in [self.src_idx]; when it has fewer, the body
    is entered. *)
Theorem first_guard_reads_last_seeded_bin (X : snapshots) (o0 : state)
    (Hwf : num_freq self = size (freq_bins self))
    (Hcov : size (correlation_matrices self X) = num_freq self)
    (Hne : freq_bins self <> [::]) :
  let last_peaks :=
    seed_peaks self (correlation_matrices self X) (num_freq self).-1 in
  exists o2 beta0 f0,
    [/\ process_at self X o0 f0 0 (0%ZZ, beta0, o2),
        src_idx o2 = last_peaks,
        loop_guard self 0%ZZ o2
        = (0 <? iter self)%ZZ
          || (Z.of_nat (size last_peaks) <? num_src self)%ZZ,
        (iter self <= 0)%ZZ ->
        (num_src self <= Z.of_nat (size last_peaks))%ZZ ->
        [/\ _process self X o0 = (o2, Ok (0%ZZ, beta0)),
            bodies_entered o2 = bodies_entered o0
          & src_idx (_process self X o0).1 = last_peaks]
      & (iter self <= 0)%ZZ ->
        (Z.of_nat (size last_peaks) < num_src self)%ZZ ->
        (bodies_entered o0 < bodies_entered (_process self X o0).1)%N].
Proof.
  move=> last_peaks.
  set C_hat := correlation_matrices self X in last_peaks *.
  set o1 := MkState (P o0) (src_idx o0) (rcons (calls o0) EvCorrelation).
  have Hall : forall k, k \in iota 0 (num_freq self) ->
      exists p, seed_spectrum self C_hat k = Ok p.
    move=> k; rewrite mem_iota add0n /= => Hk; rewrite /seed_spectrum.
    have [Ck ->] : exists Ck, getitem C_hat k = Ok Ck.
      by apply: getitem_size; rewrite Hcov.
    have [fk ->] : exists fk, getitem (freq_bins self) k = Ok fk.
      by apply: getitem_size; rewrite -Hwf.
    by eexists.
  have [o2 [invalid [Hseed Hcalls Hlast]]] := seeding_ok [::] [::] o1 Hall.
  have [f0 Hf0] := reference_frequency_ok X Hne.
  have Hsrc : src_idx o2 = last_peaks.
    move: Hlast; rewrite /last_peaks.
    case En: (num_freq self) => [|m] /=.
      by case: (freq_bins self) Hne Hwf En => [|x s] // _ ->.
    by move=> ->; rewrite (last_nth 0%N) size_iota -/(iota 0 m.+1) nth_iota.
  set beta0 := [seq seed_peaks self C_hat k | k <- iota 0 (num_freq self)].
  have Hat : process_at self X o0 f0 0 (0%ZZ, beta0, o2).
    by exists o2, beta0, invalid; split=> //; exact: reach_here.
  have [Hbodies _] := counts_after_seeding (o := o0) Hcalls.
  exists o2, beta0, f0; split=> //.
  - by rewrite /loop_guard Hsrc andbT.
  - move=> /Z.ltb_ge Hi /Z.ltb_ge Hs.
    have Hrun : _process self X o0 = (o2, Ok (0%ZZ, beta0)).
      by rewrite (process_at_run Hat) /= main_loopE /loop_guard Hsrc Hi Hs.
    by split=> //; rewrite Hrun.
  - move=> _ /Z.ltb_lt Hs.
    have Hg : loop_guard self 0%ZZ o2 by rewrite /loop_guard Hsrc Hs orbT.
    rewrite (process_at_run Hat) /= main_loopE Hg.
    case: (_coherent_sum self C_hat f0 beta0) => [R|e] /=.
    + have /= [m [-> _ _ _]] := main_loop_summary self C_hat f0 1%ZZ
        (np_tile (src_idx (scan_state self R f0 o2)) (num_freq self))
        (scan_state self R f0 o2).
      rewrite {2}/bodies_entered count_scan_state /= -/(bodies_entered o2).
      by rewrite Hbodies !addn0 -addnA add1n addnS ltnS leq_addr.
    + rewrite {2}/bodies_entered /= -cats1 count_cat /= -/(bodies_entered o2).
      by rewrite Hbodies addn0 addn1.
Qed.

End ControllerClaims.

(** ** Runs on the small arrays *)

Section DemoRuns.

Import Demo.

Lemma single_at (n : Z) (pk : seq 'I_1) :
  process_at (single n pk) (ones 1) fresh ord0 0
    (0%ZZ, [:: pk], MkState [:: 0] pk [:: EvCorrelation; EvSpectrum; EvPeaks]).
Proof.
  exists (MkState [:: 0] pk [:: EvCorrelation; EvSpectrum; EvPeaks]), [:: pk],
    (if (Z.of_nat (size pk) <? 1)%ZZ then [:: 0%N] else [::]).
  by split; [reflexivity | reflexivity | exact: reach_here].
Qed.

Lemma single_coherent_sum_nil (n : Z) (pk : seq 'I_1) :
  exists R, _coherent_sum (single n pk) [:: 1%:M] ord0 [:: [::]] = Ok R.
Proof.
  eexists; apply: coherent_sum_ok => j; rewrite /= ltnS leqn0 => /eqP ->.
  by split=> //; exists 1%:M; rewrite /bin_transform /= focusing_transform_nil.
Qed.

(** With a silent peak search the loop runs until [max num_iter 20]. *)
Lemma quiet_loop (n : Z) (m : nat) (i : Z) (o : cssm (seq algC) 1) :
  src_idx o = [::] -> (Z.max n 20 - i)%ZZ = Z.of_nat m ->
  exists o', main_loop (quiet n) [:: 1%:M] ord0 i [:: [::]] o
             = (o', Ok (Z.max n 20, [:: [::]]))
             /\ src_idx o' = [::].
Proof.
  elim: m i o => [|m IH] i o Hsrc Hm; rewrite main_loopE /loop_guard Hsrc /=.
  - have -> : (i <? n)%ZZ = false by apply/Z.ltb_ge; lia.
    have -> : (i <? 20)%ZZ = false by apply/Z.ltb_ge; lia.
    by exists o; split=> //; congr (_, Ok (_, _)); lia.
  - have -> : (i <? n)%ZZ || (i <? 20)%ZZ.
      by apply/orP; case: (Z.ltb_spec i n); [left | right; apply/Z.ltb_lt; lia].
    have [R ->] := single_coherent_sum_nil n [::].
    by apply: IH => //; lia.
Qed.

Lemma quiet_process (n : Z) :
  exists o', _process (quiet n) (ones 1) fresh
             = (o', Ok (Z.max n 20, [:: [::]]))
             /\ src_idx o' = [::].
Proof.
  rewrite (process_at_run (single_at n [::])) /=.
  by apply: (@quiet_loop n (Z.to_nat (Z.max n 20))) => //; lia.
Qed.

Lemma quiet_bodies (n : Z) :
  bodies_entered (_process (quiet n) (ones 1) fresh).1
  = Z.to_nat (Z.max n 20).
Proof.
  have [o' [Hrun _]] := quiet_process n.
  have /= [k [Hb _ _ Hok]] := process_summary (quiet n) (ones 1) fresh.
  have [Hk _] : Z.max n 20 = Z.of_nat k /\ _ := Hok _ _ (congr1 snd Hrun).
  by rewrite Hb Hk Nat2Z.id.
Qed.

Lemma twin_at :
  process_at twin (ones 2) fresh ord0 0
    (0%ZZ, [:: [:: ord0; ord0]],
     MkState [:: 1] [:: ord0; ord0] [:: EvCorrelation; EvSpectrum; EvPeaks]).
Proof.
  exists (MkState [:: 1] [:: ord0; ord0] [:: EvCorrelation; EvSpectrum; EvPeaks]),
    [:: [:: ord0; ord0]], [::].
  by split; [reflexivity | reflexivity | exact: reach_here].
Qed.

(** With the one direction reported twice, the first iteration raises. *)
Lemma twin_coherent_sum :
  _coherent_sum twin [:: 1%:M] ord0 [:: [:: ord0; ord0]] = Raise LinAlgError.
Proof.
  rewrite /_coherent_sum; apply: (coherent_loop_first_raise (j := 0)) => //.
  have pM : (size [:: (ord0 : 'I_1); ord0] <= 2)%N by [].
  have Hsing := duplicate_directions_singular twin ord0 pM isT.
  rewrite /bin_transform /= (focusing_transformE twin ord0 ord0 pM).
  by cbv zeta; rewrite (negbTE Hsing).
Qed.

Lemma twin_process :
  _process twin (ones 2) fresh
  = (MkState [:: 1] [:: ord0; ord0]
       [:: EvCorrelation; EvSpectrum; EvPeaks; EvCoherentSum],
     Raise LinAlgError).
Proof.
  by rewrite (process_at_run twin_at) /= main_loopE /= twin_coherent_sum.
Qed.

End DemoRuns.

(** ** Runs on two bins *)

Section SmallDeterminant.

Context {C : numClosedFieldType}.

Lemma det_2x2 (A : 'M[C]_2) : \det A = A 0 0 * A 1 1 - A 0 1 * A 1 0.
Proof.
  rewrite (expand_det_row _ ord0) !big_ord_recl big_ord0 addr0.
  rewrite /cofactor !det_mx11 !mxE /= /bump /= !addn0 expr0 expr1.
  rewrite mul1r mulN1r mulrN.
  have E : forall x : 'I_2,
      fintype.lift x (0 : 'I_1) = (if (x <= 0)%N then 1 else 0) :> 'I_2.
    by move=> x; apply: val_inj; rewrite /= /bump; case: x => [[|[|x]] Hx].
  by rewrite !E.
Qed.

Lemma augmented_right (M p : nat) (pM : (p <= M)%N) (A : 'M[C]_(M, p))
    (B : 'M[C]_(M, M - p)) (i : 'I_M) (c : 'I_(M - p)) :
  augmented pM A B i (cast_ord (subnKC pM) (rshift p c)) = B i c.
Proof.
  by rewrite /augmented castmxE /= cast_ordK row_mxEr cast_ord_id.
Qed.

(** On two sensors and one direction, the augmented basis is invertible
    as soon as the first entry of the steering vector is not zero. *)
Lemma augmented_2x1_unit (A : 'M[C]_(2, 1)) (pM : (1 <= 2)%N) :
  A 0 0 != 0 -> augmented pM A (basis_tail 1) \in unitmx.
Proof.
  move=> HA; rewrite unitmxE det_2x2.
  have E0 : (0 : 'I_2) = widen_ord pM ord0 by exact: val_inj.
  have E1 : (1 : 'I_2) = cast_ord (subnKC pM) (rshift 1 ord0) by exact: val_inj.
  rewrite {2 4}E0 {2 3}E1 !augmented_left !augmented_right !mxE /=.
  by rewrite mulr1 mul0r subr0 unitfE.
Qed.

End SmallDeterminant.

Section DuoRuns.
Import Demo.

Variables (n : Z) (fb : seq 'I_2) (seed0 seed1 later : seq 'I_2).
Let D := duo n fb seed0 seed1 later.

Lemma duo_focusing (f0 k d : 'I_2) :
  focusing_transform D f0 k [:: d] = Ok 1%:M.
Proof.
  have pM : (size [:: d] <= 2)%N by [].
  have U : augmented pM (steering_stack D k [:: d]) (basis_tail 1) \in unitmx.
    by apply: augmented_2x1_unit; rewrite !mxE /= oner_eq0.
  rewrite (focusing_transformE D f0 k pM); cbv zeta; rewrite U.
  have -> : steering_stack D f0 [:: d] = steering_stack D k [:: d].
    by apply/matrixP => i c; rewrite !mxE.
  by rewrite mulmxV.
Qed.

Lemma duo_transform (f0 k : 'I_2) (b : seq 'I_2) :
  (size b <= 1)%N -> focusing_transform D f0 k b = Ok 1%:M.
Proof.
  case: b => [|d [|d' b]] // _; first exact: focusing_transform_nil.
  exact: duo_focusing.
Qed.

Lemma duo_scan (R : 'M[algC]_2) (o : cssm (seq float) 2) :
  scan_state D R bin0 o
  = MkState [:: 4%float; 2%float] later
      (calls o ++ [:: EvCoherentSum; EvSubspace; EvSpectrum; EvPeaks]).
Proof. by []. Qed.

End DuoRuns.

Section DuoCalls.

Import Demo.

Variables (n : Z) (k0 k1 : 'I_2) (seed0 seed1 later : seq 'I_2).
Let D := duo n [:: k0; k1] seed0 seed1 later.

Lemma duo_coherent_sum (C0 C1 : 'M[algC]_2) (f0 : 'I_2) (b0 b1 : seq 'I_2) :
  (size b0 <= 1)%N -> (size b1 <= 1)%N ->
  _coherent_sum D [:: C0; C1] f0 [:: b0; b1] = Ok (C0 + C1).
Proof.
  move=> H0 H1; rewrite /_coherent_sum /= !duo_transform //=.
  by rewrite conj_transpose1 !mul1mx !mulmx1 add0r.
Qed.

Lemma duo_reference : reference_frequency D flat = Ok k0.
Proof.
  rewrite /reference_frequency /energies /=.
  have -> : bin_energy flat k1 = bin_energy flat k0 by [].
  by rewrite ltxx.
Qed.

(** One pass through the loop body when every row of [beta] names one
    direction at most. *)
Lemma duo_step (i : Z) (b0 b1 : seq 'I_2) (o : cssm (seq float) 2) :
  loop_guard D i o -> (size b0 <= 1)%N -> (size b1 <= 1)%N ->
  main_loop D [:: 1%:M; 2%:R%:M] bin0 i [:: b0; b1] o
  = main_loop D [:: 1%:M; 2%:R%:M] bin0 (i + 1)%ZZ [:: later; later]
      (MkState [:: 4%float; 2%float] later
         (calls o ++ [:: EvCoherentSum; EvSubspace; EvSpectrum; EvPeaks])).
Proof. by move=> Hg H0 H1; rewrite main_loopE Hg duo_coherent_sum. Qed.

End DuoCalls.

Section DuoStraight.

Import Demo.

Local Notation covs := [:: 1%:M; 2%:R%:M].
Local Notation seeded :=
  (MkState [:: 0.125%float; 0.5%float] [:: dir1]
     [:: EvCorrelation; EvSpectrum; EvPeaks; EvSpectrum; EvPeaks]).

(** Seeding finds [dir0] in bin 0 and [dir1] in bin 1; both bins have the
    same aggregate magnitude and the reference is the first one. *)
Lemma duo_at (n : Z) (later : seq 'I_2) :
  process_at (duo n [:: bin0; bin1] [:: dir0] [:: dir1] later) flat blank bin0 0
    (0%ZZ, [:: [:: dir0]; [:: dir1]], seeded).
Proof.
  exists seeded, [:: [:: dir0]; [:: dir1]], [::].
  by split; [reflexivity | exact: duo_reference | exact: reach_here].
Qed.

(** When the peak search of the loop never finds a direction, the loop
    runs until [max num_iter 20]. *)
Lemma duo_silent_loop (n : Z) (m : nat) (i : Z) (o : cssm (seq float) 2) :
  src_idx o = [::] -> (Z.max n 20 - i)%ZZ = Z.of_nat m ->
  exists o',
    main_loop (duo n [:: bin0; bin1] [:: dir0] [:: dir1] [::]) covs bin0 i
      [:: [::]; [::]] o
    = (o', Ok (Z.max n 20, [:: [::]; [::]]))
    /\ src_idx o' = [::].
Proof.
  elim: m i o => [|m IH] i o Hsrc Hm.
  - rewrite main_loopE /loop_guard Hsrc /=.
    have -> : (i <? n)%ZZ = false by apply/Z.ltb_ge; lia.
    have -> : (i <? 20)%ZZ = false by apply/Z.ltb_ge; lia.
    by exists o; split=> //; congr (_, Ok (_, _)); lia.
  - have Hg : loop_guard (duo n [:: bin0; bin1] [:: dir0] [:: dir1] [::]) i o.
      rewrite /loop_guard Hsrc /=.
      by apply/orP; case: (Z.ltb_spec i n); [left | right; apply/Z.ltb_lt; lia].
    by rewrite (duo_step Hg) //; apply: IH => //; lia.
Qed.

Lemma duo_silent_process (n : Z) :
  (0 < n)%ZZ ->
  exists o',
    _process (duo n [:: bin0; bin1] [:: dir0] [:: dir1] [::]) flat blank
    = (o', Ok (Z.max n 20, [:: [::]; [::]]))
    /\ src_idx o' = [::].
Proof.
  move=> Hn; rewrite (process_at_run (duo_at n [::])) /=.
  have Hg : loop_guard (duo n [:: bin0; bin1] [:: dir0] [:: dir1] [::]) 0%ZZ
              seeded.
    by rewrite /loop_guard /=; apply/orP; left; apply/Z.ltb_lt.
  rewrite (duo_step Hg) //.
  by apply: (@duo_silent_loop n (Z.to_nat (Z.max n 20 - 1))) => //; lia.
Qed.

Lemma duo_silent_bodies (n : Z) :
  (0 < n)%ZZ ->
  bodies_entered
    (_process (duo n [:: bin0; bin1] [:: dir0] [:: dir1] [::]) flat blank).1
  = Z.to_nat (Z.max n 20).
Proof.
  move=> Hn; have [o' [Hrun _]] := duo_silent_process Hn.
  have /= [k [Hb _ _ Hok]] :=
    process_summary (duo n [:: bin0; bin1] [:: dir0] [:: dir1] [::]) flat blank.
  have [Hk _] : Z.max n 20 = Z.of_nat k /\ _ := Hok _ _ (congr1 snd Hrun).
  by rewrite Hb Hk Nat2Z.id.
Qed.

(** With [num_iter = 1] and a loop whose peak search finds [dir0], the
    call returns after one iteration. *)
Lemma duo_found_process :
  _process (duo 1 [:: bin0; bin1] [:: dir0] [:: dir1] [:: dir0]) flat blank
  = (MkState [:: 4%float; 2%float] [:: dir0]
       [:: EvCorrelation; EvSpectrum; EvPeaks; EvSpectrum; EvPeaks;
           EvCoherentSum; EvSubspace; EvSpectrum; EvPeaks],
     Ok (1%ZZ, [:: [:: dir0]; [:: dir0]])).
Proof.
  by rewrite (process_at_run (duo_at 1 [:: dir0])) /= duo_step // main_loopE.
Qed.

End DuoStraight.

(** ** Instances and counterexamples *)

Section Instances.

Import Demo.

(** C4 on two sensors and one direction. *)
Lemma focusing_transform_augmented_bases_witness :
  exists pM : (size [:: (ord0 : 'I_1)] < 2)%N,
    focusing_transform twin ord0 ord0 [:: ord0] =
    if augmented (ltnW pM) (steering_stack twin ord0 [:: ord0]) (basis_tail 1)
         \in unitmx
    then Ok (augmented (ltnW pM) (steering_stack twin ord0 [:: ord0])
               (basis_tail 1)
             *m invmx (augmented (ltnW pM)
                         (steering_stack twin ord0 [:: ord0]) (basis_tail 1)))
    else Raise LinAlgError.
Proof.
  exists (isT : (size [:: (ord0 : 'I_1)] < 2)%N).
  exact (@focusing_transform_augmented_bases _ _ _ _ _ _ twin ord0 ord0 [:: ord0] isT).
Defined.


(** C6 on two sensors with the one direction reported twice: the two
    columns of the basis are the same column of ones, and the inversion
    raises; in binary64 as well, where the second pivot, [1 - 1 * 1], is
    exactly zero. *)
Lemma inversion_failure_aborts_call_witness :
  exists pM : (size [:: (ord0 : 'I_1); ord0] <= 2)%N,
    [/\ process_at twin (ones 2) fresh ord0 0
          (0%ZZ, [:: [:: ord0; ord0]],
           MkState [:: 1] [:: ord0; ord0]
             [:: EvCorrelation; EvSpectrum; EvPeaks]),
        loop_guard twin 0%ZZ
          (MkState [:: 1] [:: ord0; ord0]
             [:: EvCorrelation; EvSpectrum; EvPeaks]),
        np_linalg_inv
          (np_c_ pM (take_directions twin ord0 [:: ord0; ord0])^T
             (complement_block 2)) = Raise LinAlgError,
        Float64.inv_raises_2x2 1 1 1 1 = true
      & _process twin (ones 2) fresh
        = (MkState [:: 1] [:: ord0; ord0]
             [:: EvCorrelation; EvSpectrum; EvPeaks; EvCoherentSum],
           Raise LinAlgError)].
Proof.
  exists (isT : (size [:: (ord0 : 'I_1); ord0] <= 2)%N).
  have Hinv : np_linalg_inv
      (np_c_ (isT : (size [:: (ord0 : 'I_1); ord0] <= 2)%N)
         (take_directions twin ord0 [:: ord0; ord0])^T (complement_block 2))
      = Raise LinAlgError.
    have Hsing : augmented (isT : (size [:: (ord0 : 'I_1); ord0] <= 2)%N)
        (steering_stack twin ord0 [:: ord0; ord0]) (basis_tail 2) \notin unitmx.
      exact: duplicate_directions_singular.
    by rewrite /np_linalg_inv np_c_E take_directionsT (negbTE Hsing).
  split=> //; first exact: twin_at.
  have [_ [e [_ _ -> He]]] :=
    inversion_failure_aborts_call (j := 0) twin_at isT
      (@erefl _ (Ok ord0)) (@erefl _ (Ok [:: ord0; ord0])) Hinv.
  by rewrite He.
Defined.

(** C7 on the object without an active bin. *)
Lemma empty_bins_raise_after_correlation_witness :
  freq_bins silent = [::] /\ num_freq silent = 0%N
  /\ _process silent (ones 1) fresh
     = (MkState [::] [::] [:: EvCorrelation], Raise ValueError).
Proof.
  split; [reflexivity | split; [reflexivity |]].
  exact: (empty_bins_raise_after_correlation (self := silent) (ones 1) fresh
            (@erefl _ [::]) (@erefl _ 0%N)).
Defined.

(** C8 on two bins with [num_iter = 1]: seeding found [dir0] in bin 0
    and [dir1] in bin 1; the peak search of the loop finds [dir0], and
    after the iteration both bins hold [dir0]. *)
Lemma beta_is_last_peak_list_for_every_bin_witness :
  num_freq (duo 1 [:: bin0; bin1] [:: dir0] [:: dir1] [:: dir0])
  = size (freq_bins (duo 1 [:: bin0; bin1] [:: dir0] [:: dir1] [:: dir0]))
  /\ exists o',
       [/\ iteration (duo 1 [:: bin0; bin1] [:: dir0] [:: dir1] [:: dir0])
             [:: 1%:M; 2%:R%:M] bin0 [:: [:: dir0]; [:: dir1]]
             (MkState [:: 0.125%float; 0.5%float] [:: dir1]
                [:: EvCorrelation; EvSpectrum; EvPeaks; EvSpectrum; EvPeaks])
           = (o', Ok [:: [:: dir0]; [:: dir0]]),
           src_idx o' = [:: dir0],
           [:: [:: dir0]; [:: dir0]]
           = np_tile (src_idx o')
               (num_freq (duo 1 [:: bin0; bin1] [:: dir0] [:: dir1] [:: dir0]))
         & forall j, (j < 2)%N ->
             getitem [:: [:: dir0]; [:: dir0]] j = Ok (src_idx o')].
Proof.
  set D := duo 1 [:: bin0; bin1] [:: dir0] [:: dir1] [:: dir0].
  set o2 := MkState _ _ _.
  split; first by [].
  have Hbody : iteration D [:: 1%:M; 2%:R%:M] bin0 [:: [:: dir0]; [:: dir1]] o2
      = (scan_state D (1%:M + 2%:R%:M) bin0 o2, Ok [:: [:: dir0]; [:: dir0]]).
    by rewrite iterationE duo_coherent_sum.
  have [[Hbeta _ Hget _ _] _] :=
    beta_is_last_peak_list_for_every_bin (self := D) (@erefl _ 2%N) Hbody.
  by exists (scan_state D (1%:M + 2%:R%:M) bin0 o2); split.
Defined.

(** C10 on two bins with [num_iter = 0]: seeding finds nothing in bin 0
    and [dir1] in bin 1, the last one; the call returns without entering
    the loop body and leaves [dir1] in [self.src_idx]. *)
Lemma first_guard_reads_last_seeded_bin_witness :
  [/\ num_freq (duo 0 [:: bin0; bin1] [::] [:: dir1] [::])
      = size (freq_bins (duo 0 [:: bin0; bin1] [::] [:: dir1] [::])),
      size (correlation_matrices (duo 0 [:: bin0; bin1] [::] [:: dir1] [::]) flat)
      = num_freq (duo 0 [:: bin0; bin1] [::] [:: dir1] [::])
    & freq_bins (duo 0 [:: bin0; bin1] [::] [:: dir1] [::]) <> [::]]
  /\ [/\ seed_peaks (duo 0 [:: bin0; bin1] [::] [:: dir1] [::])
           [:: 1%:M; 2%:R%:M] 0 = [::],
         seed_peaks (duo 0 [:: bin0; bin1] [::] [:: dir1] [::])
           [:: 1%:M; 2%:R%:M] 1 = [:: dir1],
         (iter (duo 0 [:: bin0; bin1] [::] [:: dir1] [::]) <= 0)%ZZ,
         (num_src (duo 0 [:: bin0; bin1] [::] [:: dir1] [::])
          <= Z.of_nat (size [:: dir1]))%ZZ
       & exists o2 beta0,
           [/\ _process (duo 0 [:: bin0; bin1] [::] [:: dir1] [::]) flat blank
               = (o2, Ok (0%ZZ, beta0)),
               src_idx o2 = [:: dir1]
             & bodies_entered o2 = 0%N]].
Proof.
  set D := duo 0 [:: bin0; bin1] [::] [:: dir1] [::].
  have Hne : freq_bins D <> [::] by [].
  split; first by split.
  have /= [o2 [beta0 [f0 [_ Hsrc _ Hzero _]]]] :=
    first_guard_reads_last_seeded_bin (self := D) (X := flat) blank
      (@erefl _ 2%N) (@erefl _ 2%N) Hne.
  have [Hrun Hbodies _] := Hzero (Z.le_refl 0) (Z.le_refl 1).
  by split=> //; exists o2, beta0; split.
Defined.

(** C10, as claimed, fails for [num_iter = 1].  Two objects have the same
    seeding, in which the last bin's peak list, [dir1], has the one
    direction asked for; they differ in what the peak search of the loop
    finds.  Where it finds nothing, the call runs 19 iterations beyond
    [num_iter]; where it finds [dir0], the call returns after the one
    iteration. *)
Lemma later_iterations_not_decided_by_last_seeded_bin :
  [/\ seed_peaks (duo 1 [:: bin0; bin1] [:: dir0] [:: dir1] [::])
        [:: 1%:M; 2%:R%:M] 1 = [:: dir1]
      /\ seed_peaks (duo 1 [:: bin0; bin1] [:: dir0] [:: dir1] [:: dir0])
           [:: 1%:M; 2%:R%:M] 1 = [:: dir1],
      iter (duo 1 [:: bin0; bin1] [:: dir0] [:: dir1] [::]) = 1%ZZ
      /\ num_src (duo 1 [:: bin0; bin1] [:: dir0] [:: dir1] [::]) = 1%ZZ,
      (_process (duo 1 [:: bin0; bin1] [:: dir0] [:: dir1] [::]) flat blank).2
      = Ok (20%ZZ, [:: [::]; [::]])
      /\ bodies_entered
           (_process (duo 1 [:: bin0; bin1] [:: dir0] [:: dir1] [::])
              flat blank).1 = 20%N
    & (_process (duo 1 [:: bin0; bin1] [:: dir0] [:: dir1] [:: dir0])
         flat blank).2
      = Ok (1%ZZ, [:: [:: dir0]; [:: dir0]])
      /\ bodies_entered
           (_process (duo 1 [:: bin0; bin1] [:: dir0] [:: dir1] [:: dir0])
              flat blank).1 = 1%N].
Proof.
  have H1 : (0 < 1)%ZZ by [].
  have [o' [Hrun _]] := duo_silent_process H1.
  split=> //.
  - split; first by rewrite Hrun.
    exact: (duo_silent_bodies H1).
  - by rewrite duo_found_process.
Qed.

(** C1, as claimed, fails for [num_iter = 20]: after the 20 iterations
    the peak search has found no direction where one is asked for, and the
    call returns with the counter at 20, the body entered 20 times.  It
    also fails on a call that raises: with [num_iter = 5] and a direction
    reported twice, the body is entered once. *)
Lemma no_further_iteration_at_num_iter_20 :
  [/\ iter (quiet 20) = 20%ZZ,
      (_process (quiet 20) (ones 1) fresh).2 = Ok (20%ZZ, [:: [::]]),
      bodies_entered (_process (quiet 20) (ones 1) fresh).1 = 20%N
    & (Z.of_nat (size (src_idx (_process (quiet 20) (ones 1) fresh).1))
       < num_src (quiet 20))%ZZ]
  /\ [/\ iter twin = 5%ZZ,
         (_process twin (ones 2) fresh).2 = Raise LinAlgError
       & bodies_entered (_process twin (ones 2) fresh).1 = 1%N].
Proof.
  have [o' [Hrun Hsrc]] := quiet_process 20.
  split; first by split; rewrite ?quiet_bodies // Hrun //= Hsrc.
  by rewrite twin_process.
Qed.


(** C7, as claimed, fails: with no active bin the call has already
    invoked the correlation estimator when it raises. *)
Lemma correlation_estimated_before_empty_failure :
  freq_bins silent = [::]
  /\ (_process silent (ones 1) fresh).2 = Raise ValueError
  /\ calls fresh = [::]
  /\ calls (_process silent (ones 1) fresh).1 = [:: EvCorrelation].
Proof. by []. Qed.

(** C5, as claimed, fails when [self.freq_bins] is not increasing: with
    the bins listed as [1, 0] and the same aggregate magnitude in both, the
    reference is bin 1, the one listed first, not the lowest bin index. *)
Lemma tie_goes_to_first_listed_bin :
  [/\ freq_bins (duo 5 [:: bin1; bin0] [:: dir0] [:: dir1] [::])
      = [:: bin1; bin0],
      aggregate_magnitude flat bin0 = aggregate_magnitude flat bin1,
      reference_frequency (duo 5 [:: bin1; bin0] [:: dir0] [:: dir1] [::]) flat
      = Ok bin1
    & (bin0 < bin1)%N].
Proof. by split=> //; exact: duo_reference. Qed.

(** C6, as claimed, fails in binary64.  With the steering vector [(1, 49)]
    and a direction listed twice, the basis [[1, 1], [49, 49]] is
    singular; its factorisation puts the row [(49, 49)] first and leaves
    the second pivot [1 - (1 / 49) * 49], which is rounded to [2^-53], not
    zero: [np.linalg.inv] raises nothing and returns a matrix. *)
Lemma singular_basis_inverted_without_error :
  [/\ steering_stack (duo 5 [:: bin0; bin1] [:: dir0] [:: dir1] [::]) bin1
        [:: dir0; dir0]
      = \matrix_(i, c) (if nat_of_ord i is 0%N then 1 else 49%:R),
      augmented (isT : (size [:: dir0; dir0] <= 2)%N)
        (steering_stack (duo 5 [:: bin0; bin1] [:: dir0] [:: dir1] [::]) bin1
           [:: dir0; dir0])
        (basis_tail 2) \notin unitmx,
      Float64.lu_pivots_2x2 1 1 49 49 = (49%float, 0x1p-53%float)
    & Float64.inv_raises_2x2 1 1 49 49 = false].
Proof.
  split; [| | reflexivity | reflexivity].
  - by apply/matrixP => i c; rewrite !mxE.
  - exact: duplicate_directions_singular.
Qed.


(** The sums of line 68 are rounded too.  With three sensors and one
    sample, the magnitudes [(2^53, 1, 1)] in one bin and [(1, 1, 2^53)] in
    the next have the same sum, [2^53 + 2]; added in sensor order they
    give [2^53] and [2^53 + 2], and [np.argmax] selects the second bin. *)
Lemma rounded_sums_break_a_tie :
  [/\ Float64.bin_sum [:: 0x1p53%float; 1%float; 1%float] = 0x1p53%float,
      Float64.bin_sum [:: 1%float; 1%float; 0x1p53%float]
      = (0x1p53 + 2)%float,
      (0x1p53 <? 0x1p53 + 2)%float = true
    & Float64.argmax
        [:: Float64.bin_sum [:: 0x1p53%float; 1%float; 1%float];
            Float64.bin_sum [:: 1%float; 1%float; 0x1p53%float]]
      = Ok 1%N].
Proof. by split; reflexivity. Qed.

End Instances.

(** ** Definedness of [_coherent_sum] *)

Section CoherentSumDefinedness.

Context {C : numClosedFieldType} {M K L S : nat} {spectrum : Type}.
Variable self : CSSM C M K L S spectrum.

Notation directions := (seq (seq 'I_L)).

(** X3.  When the peak list that is tiled into [beta] names more
    directions than there are sensors, [_coherent_sum] raises [ValueError]
    at its first bin (the zero block of [B] would need a negative
    dimension). *)
Theorem more_directions_than_sensors_raise (C_hat : seq 'M[C]_M) (f0 : 'I_K)
    (s : seq 'I_L)
    (Hmany : (M < size s)%N) (Hnum : (0 < num_freq self)%N)
    (Hne : freq_bins self <> [::]) :
  _coherent_sum self C_hat f0 (np_tile s (num_freq self)) = Raise ValueError.
Proof.
  rewrite /_coherent_sum; apply: (coherent_loop_first_raise (j := 0)) => //.
    by rewrite add0n /=; case: (freq_bins self) Hne.
  rewrite /bin_transform /np_tile getitem_nseq //.
  case: (freq_bins self) Hne => [|k ks] // _ /=.
  exact: focusing_transform_too_many.
Qed.

End CoherentSumDefinedness.

(** ** Seeding, the call log and the iteration count *)

Section ControllerExtras.

Context {C : numClosedFieldType} {M K L S : nat} {spectrum : Type}.
Variable self : CSSM C M K L S spectrum.

Notation snapshots := ('I_M -> 'I_K -> 'I_S -> C).
Notation state := (cssm spectrum L).
Notation directions := (seq (seq 'I_L)).

Lemma getitem_raise (A : Type) (s : seq A) (i : nat) (e : exn) :
  getitem s i = Raise e -> e = IndexError.
Proof. by elim: s i => [|x s IH] [|i] //=; [case | case | exact: IH]. Qed.

Lemma getitem_oversize (A : Type) (s : seq A) (i : nat) :
  (size s <= i)%N -> getitem s i = Raise IndexError.
Proof. by elim: s i => [|x s IH] [|i] //=; exact: IH. Qed.

Lemma seed_spectrum_raise (C_hat : seq 'M[C]_M) (k : nat) (e : exn) :
  seed_spectrum self C_hat k = Raise e -> e = IndexError.
Proof.
  rewrite /seed_spectrum.
  case H1: (getitem C_hat k) => [Ck|e1] /=; last first.
    by case=> <-; exact: getitem_raise H1.
  case H2: (getitem (freq_bins self) k) => [fk|e2] //= [<-].
  exact: getitem_raise H2.
Qed.

(** What a seeding pass that completes has computed. *)
Lemma seeding_result (ks : seq nat) (C_hat : seq 'M[C]_M) (beta : directions)
    (invalid : seq nat) (o o' : state) (beta' : directions)
    (invalid' : seq nat) :
  seeding self ks C_hat beta invalid o = (o', Ok (beta', invalid')) ->
  [/\ beta' = beta ++ [seq seed_peaks self C_hat k | k <- ks],
      invalid' = invalid ++
        [seq k <- ks | (Z.of_nat (size (seed_peaks self C_hat k))
                        <? num_src self)%ZZ]
    & calls o' = calls o ++ seed_calls (size ks)].
Proof.
  elim: ks beta invalid o => [|k ks IH] beta invalid o.
  - by case=> <- <- <-; rewrite !cats0.
  - case Hp: (seed_spectrum self C_hat k) => [p|e]; last first.
      by rewrite (seeding_cons_raise ks beta invalid o Hp).
    rewrite (seeding_cons_ok ks beta invalid o Hp) => /IH [-> -> ->].
    rewrite /= [seed_peaks self C_hat k]/seed_peaks Hp cat_rcons -catA.
    by split=> //; case: ifP => _; rewrite ?cat_rcons.
Qed.

(** A seeding pass that meets a bin it cannot look up raises
    [IndexError]. *)
Lemma seeding_index_error (ks : seq nat) (C_hat : seq 'M[C]_M)
    (beta : directions) (invalid : seq nat) (o : state) (k : nat) (e : exn) :
  k \in ks -> seed_spectrum self C_hat k = Raise e ->
  (seeding self ks C_hat beta invalid o).2 = Raise IndexError.
Proof.
  elim: ks beta invalid o => [|k0 ks IH] beta invalid o //.
  rewrite in_cons => Hin Hk.
  case Hp: (seed_spectrum self C_hat k0) => [p|e0].
  - rewrite (seeding_cons_ok ks beta invalid o Hp); apply: IH => //.
    by case/orP: Hin => // /eqP Ek; move: Hk; rewrite Ek Hp.
  - by rewrite (seeding_cons_raise ks beta invalid o Hp) (seed_spectrum_raise Hp).
Qed.

Lemma loop_reach_calls (C_hat : seq 'M[C]_M) (f0 : 'I_K) (n : nat)
    (st st' : Z * directions * state) :
  loop_reach self C_hat f0 n st st' ->
  calls st'.2 = calls st.2 ++ loop_calls n.
Proof.
  elim=> [st0|m i beta o R st2 Hg Hsum _ ->] /=; first by rewrite cats0.
  rewrite /scan_state.
  case: (subspace_decomposition self R) => [[[Es En] ws] wn] /=.
  by rewrite -catA.
Qed.

(** X1.  A seeding pass that completes leaves [num_freq] rows in [beta],
    one per bin whether the bin was found invalid or not, and lists in
    [invalid], in increasing order, exactly the bins whose peak search
    returned fewer than [num_src] directions. *)
Theorem seeding_keeps_a_row_for_every_bin (C_hat : seq 'M[C]_M)
    (o o' : state) (beta : directions) (invalid : seq nat)
    (Hseed : seeding self (iota 0 (num_freq self)) C_hat [::] [::] o
             = (o', Ok (beta, invalid))) :
  [/\ size beta = num_freq self,
      forall k, (k \in invalid) =
        (k < num_freq self)%N
        && (Z.of_nat (size (seed_peaks self C_hat k)) <? num_src self)%ZZ
    & sorted ltn invalid].
Proof.
  have [-> -> _] := seeding_result Hseed; split.
  - by rewrite size_map size_iota.
  - by move=> k; rewrite /= mem_filter mem_iota add0n /= andbC.
  - by rewrite /= sorted_filter ?iota_ltn_sorted //; exact: ltn_trans.
Qed.

(** X2.  When the estimator returns fewer covariances than [num_freq], or
    fewer bins are listed than [num_freq], [_process] raises [IndexError]
    during seeding and never enters the loop body. *)
Theorem seeding_out_of_range_raises (X : snapshots) (o0 : state)
    (Hshort : (size (correlation_matrices self X) < num_freq self)%N
              \/ (size (freq_bins self) < num_freq self)%N) :
  (_process self X o0).2 = Raise IndexError
  /\ bodies_entered (_process self X o0).1 = bodies_entered o0.
Proof.
  rewrite processE /=.
  set o1 := MkState _ _ _; set C_hat := correlation_matrices self X.
  have [k [Hk [e He]]] : exists k, k \in iota 0 (num_freq self)
      /\ exists e, seed_spectrum self C_hat k = Raise e.
    case: Hshort => Hlt.
    + exists (size C_hat); rewrite mem_iota add0n; split=> //.
      by exists IndexError; rewrite /seed_spectrum getitem_oversize.
    + exists (size (freq_bins self)); rewrite mem_iota add0n; split=> //.
      rewrite /seed_spectrum; case: (getitem C_hat _) => [Ck|e] /=;
        last by exists e.
      by exists IndexError; rewrite getitem_oversize.
  have Hraise := seeding_index_error [::] [::] o1 Hk He.
  have [m] := seeding_calls self (iota 0 (num_freq self)) C_hat [::] [::] o1.
  case: (seeding _ _ _ _ _ _) Hraise => [o2 [[beta invalid]|e2]] //= [->] Hc.
  by have [Hb _] := counts_after_seeding Hc.
Qed.

(** X8.  The collaborator calls of a call that returns, in order: the
    correlation estimator once; for each of the [num_freq] bins a
    spectrum and a peak search; then, for each of the iterations counted
    by the final [i], [_coherent_sum], the decomposition, a spectrum and a
    peak search. *)
Theorem returning_call_log (X : snapshots) (o0 o' : state) (i' : Z)
    (beta' : directions)
    (Hrun : _process self X o0 = (o', Ok (i', beta'))) :
  calls o' = rcons (calls o0) EvCorrelation
             ++ seed_calls (num_freq self) ++ loop_calls (Z.to_nat i').
Proof.
  move: Hrun; rewrite processE /=.
  case Hseed: (seeding _ _ _ _ _ _) => [o2 [[beta invalid]|e]] //.
  have [_ _ Hc] := seeding_result Hseed.
  case: (reference_frequency self X) => [f0|e] // Hloop.
  have [[n Hreach] _] := main_loop_ok_reach Hloop.
  have /= [-> _ _ _] := loop_reach_count Hreach.
  by rewrite (loop_reach_calls Hreach) /= Hc /= size_iota Nat2Z.id catA.
Qed.

(** X12.  A call that returns stops at the first loop head where the
    termination condition holds: every loop head it passes through has a
    counter no larger than the final one, and equal to it exactly when the
    condition holds there. *)
Theorem stops_at_first_head_meeting_condition (X : snapshots) (o0 : state)
    (f0 : 'I_K) (n : nat) (i : Z) (beta : directions) (o : state)
    (i' : Z) (beta' : directions)
    (Hat : process_at self X o0 f0 n (i, beta, o))
    (Hret : (_process self X o0).2 = Ok (i', beta')) :
  (i <= i')%ZZ
  /\ (i = i' <-> stop_condition self i (size (src_idx o))).
Proof.
  move: Hret; rewrite (process_at_run Hat) /= => Hret.
  set C_hat := correlation_matrices self X in Hret.
  have /= [m [_ _ _ Hok]] := main_loop_summary self C_hat f0 i beta o.
  have [Hi _] := Hok _ _ Hret.
  split; first by lia.
  move: Hret; rewrite main_loopE loop_guardE.
  case Hstop: (stop_condition self i (size (src_idx o))) => /=.
    by case=> <- _.
  case: (_coherent_sum self C_hat f0 beta) => [R|e] //= Hret.
  have /= [m' [_ _ _ Hok']] := main_loop_summary self C_hat f0 (i + 1)%ZZ
    (np_tile (src_idx (scan_state self R f0 o)) (num_freq self))
    (scan_state self R f0 o).
  have [Hi' _] := Hok' _ _ Hret.
  by split=> //; lia.
Qed.

End ControllerExtras.

(** ** The constructor and the iteration budget *)

Section ConstructorExtras.

Context {C : numClosedFieldType} {M K L S : nat} {spectrum : Type}.
Variable base : CSSM C M K L S spectrum.

Notation snapshots := ('I_M -> 'I_K -> 'I_S -> C).
Notation state := (cssm spectrum L).
Notation directions := (seq (seq 'I_L)).

(** From a counter that is not negative, the loops of two objects built
    with non-positive [num_iter] run alike. *)
Lemma main_loop_nonpositive_iter (n : Z) (C_hat : seq 'M[C]_M) (f0 : 'I_K)
    (i : Z) (beta : directions) (o : state) :
  (n <= 0)%ZZ -> (0 <= i)%ZZ ->
  main_loop (__init__ base (Some 0%ZZ)) C_hat f0 i beta o =
  main_loop (__init__ base (Some n)) C_hat f0 i beta o.
Proof.
  move=> Hn; move: i beta o.
  have Hguard : forall i (o : state), (0 <= i)%ZZ ->
      loop_guard (__init__ base (Some 0%ZZ)) i o
      = loop_guard (__init__ base (Some n)) i o.
    move=> i o Hi; rewrite /loop_guard /=.
    have -> : (i <? 0)%ZZ = false by apply/Z.ltb_ge.
    by have -> : (i <? n)%ZZ = false by apply/Z.ltb_ge; lia.
  apply: (main_loop_ind (self := __init__ base (Some n))
    (Q := fun i beta o out => (0 <= i)%ZZ ->
       main_loop (__init__ base (Some 0%ZZ)) C_hat f0 i beta o = out)).
  - by move=> i beta o Hg Hi; rewrite main_loopE Hguard // Hg.
  - move=> i beta o e Hg Hsum Hi; rewrite main_loopE Hguard // Hg.
    by rewrite -[_coherent_sum _ _ _ _]/(_coherent_sum (__init__ base (Some n))
                                           C_hat f0 beta) Hsum.
  - move=> i beta o R out Hg Hsum IH Hi; rewrite main_loopE Hguard // Hg.
    rewrite -[_coherent_sum _ _ _ _]/(_coherent_sum (__init__ base (Some n))
                                        C_hat f0 beta) Hsum.
    by apply: IH; lia.
Qed.

(** X10.  A non-positive [num_iter] behaves as [num_iter = 0]: the call
    has the same outcome and leaves the object in the same state. *)
Theorem nonpositive_num_iter_is_zero (n : Z) (X : snapshots) (o0 : state)
    (Hn : (n <= 0)%ZZ) :
  _process (__init__ base (Some n)) X o0
  = _process (__init__ base (Some 0%ZZ)) X o0.
Proof.
  rewrite !processE /=.
  rewrite -[seeding (__init__ base (Some n)) _ _ _ _ _]
           /(seeding (__init__ base (Some 0%ZZ)) _ _ _ _ _).
  case: (seeding _ _ _ _ _ _) => [o2 [[beta invalid]|e]] //.
  rewrite -[reference_frequency (__init__ base (Some n)) X]
           /(reference_frequency (__init__ base (Some 0%ZZ)) X).
  case: (reference_frequency _ X) => [f0|e] //.
  by rewrite (main_loop_nonpositive_iter _ _ _ _ Hn).
Qed.

(** X11.  An object built without [num_iter] runs with the default 5: a
    call enters the loop body at most 20 times, and a call that returns
    has entered it between 5 and 20 times, as many times as its final
    counter says. *)
Theorem default_num_iter_budget (X : snapshots) (o0 : state) :
  iter (__init__ base None) = 5%ZZ
  /\ exists n : nat,
       [/\ bodies_entered (_process (__init__ base None) X o0).1
           = (bodies_entered o0 + n)%N,
           (n <= 20)%N
         & forall i' beta',
             (_process (__init__ base None) X o0).2 = Ok (i', beta') ->
             i' = Z.of_nat n /\ (5 <= n)%N].
Proof.
  split=> //.
  have /= [n [Hb _ Hmax Hok]] := process_summary (__init__ base None) X o0.
  have Hn : (n <= 20)%N by apply/ssrnat.leP; move: Hmax => /=; lia.
  exists n; split=> // i' beta' /Hok [Hi].
  rewrite loop_guardE => /negbFE.
  rewrite /stop_condition /= => /andP [/Z.leb_le H5 _]; split=> //.
  by apply/ssrnat.leP; lia.
Qed.

End ConstructorExtras.

(** ** Instances of the further properties *)

Section ExtraInstances.

Import Demo.

(** X1 on two bins: the peak search finds nothing in bin 0, which is
    invalid and keeps a row, and one direction in bin 1. *)
Lemma seeding_keeps_a_row_for_every_bin_witness :
  exists o' beta,
    [/\ seeding (duo 5 [:: bin0; bin1] [::] [:: dir1] [::])
          (iota 0 (num_freq (duo 5 [:: bin0; bin1] [::] [:: dir1] [::])))
          [:: 1%:M; 2%:R%:M] [::] [::] blank
        = (o', Ok (beta, [:: 0%N])),
        P o' = [:: 0.125%float; 0.5%float],
        size beta = 2%N
      & (1%N \in [:: 0%N]) = false].
Proof.
  set D := duo 5 [:: bin0; bin1] [::] [:: dir1] [::].
  pose o' : cssm (seq float) 2 :=
    MkState [:: 0.125%float; 0.5%float] [:: dir1]
      [:: EvSpectrum; EvPeaks; EvSpectrum; EvPeaks].
  have Hseed : seeding D (iota 0 (num_freq D)) [:: 1%:M; 2%:R%:M] [::] [::] blank
      = (o', Ok ([:: [::]; [:: dir1]], [:: 0%N])).
    reflexivity.
  have [Hsize Hinv _] := seeding_keeps_a_row_for_every_bin (self := D) Hseed.
  by exists o', [:: [::]; [:: dir1]]; split.
Defined.

(** X2 on the object whose estimator returns no matrix. *)
Lemma seeding_out_of_range_raises_witness :
  ((size (correlation_matrices starved (ones 1)) < num_freq starved)%N
   \/ (size (freq_bins starved) < num_freq starved)%N)
  /\ (_process starved (ones 1) fresh).2 = Raise IndexError
  /\ bodies_entered (_process starved (ones 1) fresh).1 = bodies_entered fresh.
Proof.
  have Hshort : (size (correlation_matrices starved (ones 1)) < num_freq starved)%N
      \/ (size (freq_bins starved) < num_freq starved)%N by left.
  split; first exact: Hshort.
  exact: (seeding_out_of_range_raises (self := starved) fresh Hshort).
Defined.

(** X3 on one sensor and a peak list of two entries. *)
Lemma more_directions_than_sensors_raise_witness :
  [/\ (1 < size [:: (ord0 : 'I_1); ord0])%N,
      (0 < num_freq (quiet 5))%N,
      freq_bins (quiet 5) <> [::]
    & _coherent_sum (quiet 5) [:: 1%:M] ord0
        (np_tile [:: ord0; ord0] (num_freq (quiet 5))) = Raise ValueError].
Proof.
  have Hne : freq_bins (quiet 5) <> [::] by [].
  split; [reflexivity | reflexivity | exact: Hne |].
  exact: (more_directions_than_sensors_raise (self := quiet 5) [:: 1%:M] ord0
            (s := [:: ord0; ord0]) isT isT Hne).
Defined.

(** X8 on the call with a silent peak search: 20 iterations. *)
Lemma returning_call_log_witness :
  exists o', _process (quiet 5) (ones 1) fresh = (o', Ok (20%ZZ, [:: [::]]))
    /\ calls o' = rcons (calls fresh) EvCorrelation
                  ++ seed_calls (num_freq (quiet 5)) ++ loop_calls 20.
Proof.
  have [o' [Hrun _]] := quiet_process 5.
  exists o'; split=> //.
  exact: (returning_call_log (self := quiet 5) Hrun).
Defined.

(** X10 on [num_iter = -3]. *)
Lemma nonpositive_num_iter_is_zero_witness :
  (-3 <= 0)%ZZ
  /\ _process (__init__ (quiet 7) (Some (-3)%ZZ)) (ones 1) fresh
     = _process (__init__ (quiet 7) (Some 0%ZZ)) (ones 1) fresh.
Proof.
  have Hn : (-3 <= 0)%ZZ by [].
  split; first exact: Hn.
  exact: (nonpositive_num_iter_is_zero (quiet 7) (ones 1) fresh Hn).
Defined.

(** X12 on the call with a silent peak search and [num_iter = 5]: at its
    first loop head the counter is 0 and the condition fails; the call
    returns with the counter at 20. *)
Lemma stops_at_first_head_meeting_condition_witness :
  [/\ process_at (quiet 5) (ones 1) fresh ord0 0
        (0%ZZ, [:: [::]],
         MkState [:: 0] [::] [:: EvCorrelation; EvSpectrum; EvPeaks]),
      (_process (quiet 5) (ones 1) fresh).2 = Ok (20%ZZ, [:: [::]]),
      (0 <= 20)%ZZ
    & (0%ZZ = 20%ZZ) <->
      stop_condition (quiet 5) 0%ZZ (size ([::] : seq 'I_1))].
Proof.
  have Hat := single_at 5 [::].
  have Hret : (_process (quiet 5) (ones 1) fresh).2 = Ok (20%ZZ, [:: [::]]).
    by have [o' [-> _]] := quiet_process 5.
  have [Hle Hiff] :=
    stops_at_first_head_meeting_condition (self := quiet 5) Hat Hret.
  by split.
Defined.

End ExtraInstances.
